(** * GG1-C2 Rendering Water Caustics: the water surface engine

    A shallow embedding of [src/objects/water.cpp], [src/objects/water.h]
    and, of [src/kernel/kernel.cpp], of the texture synthesis of
    [Kernel::start], of [Kernel::update], of [Kernel::handleEvents] and of
    the key tests and the frame counter of the main loop, with the
    properties the specification states about them and further properties
    the code shows.

    Conventions of the embedding.
    - A C++ [int] is a [Z]; [/] on [int] is [Z.quot] (truncation toward
      zero); a value stored as [unsigned int] or [unsigned char] is reduced
      modulo 2^32 or 2^8.
    - [float] and [double] are the two carriers of the class [Arith].  The
      instance [IEEE] is IEEE-754 binary32 / binary64 with round to nearest
      even, taken from the Standard Library's [SpecFloat]: it is the
      arithmetic the code runs in, and the runs of the code are evaluated in
      it.  The instance [Exact] reads each float as the rational it denotes
      and each operation as its unrounded result: it tells what a value owes
      to rounding, and a statement proved in it says so.
    - [rand], [RAND_MAX], [sin] and [cos] belong to the C library, not to the
      repository: they are the fields of the class [Libc].
    - A call either returns, throws ([std::vector::at] out of range) or has
      undefined behaviour: the monad [result].
    - The OpenGL buffer objects a [Water] owns are fields of its record; the
      draw calls it issues are returned as a list. *)

From Stdlib Require Import ZArith QArith Qround List Bool Lia Lqa.
From Stdlib Require Import Floats.SpecFloat.
Import ListNotations.

Set Implicit Arguments.
Local Open Scope Z_scope.

(** ** Outcomes of a call *)

Inductive exn : Type :=
| out_of_range.          (* thrown by std::vector::at *)

Inductive result (A : Type) : Type :=
| Ok (a : A)             (* the call returns a *)
| Throw (e : exn)        (* an exception leaves the call *)
| Undefined.             (* undefined behaviour *)

Arguments Ok {A} a.
Arguments Throw {A} e.
Arguments Undefined {A}.

Definition bind {A B : Type} (m : result A) (k : A -> result B) : result B :=
  match m with
  | Ok a => k a
  | Throw e => Throw e
  | Undefined => Undefined
  end.

Notation "x <- m ;; k" := (bind m (fun x => k))
  (at level 61, m at next level, right associativity).

(** [for (int i = 0; i < n; i ++)]: the values [i] takes, in order. *)
Definition range (n : Z) : list Z := map Z.of_nat (seq 0 (Z.to_nat n)).

(** A loop whose body may fail, threading the mutated state [s]. *)
Fixpoint forM {S : Type} (l : list Z) (body : Z -> S -> result S) (s : S)
  : result S :=
  match l with
  | [] => Ok s
  | i :: l' => s' <- body i s ;; forM l' body s'
  end.

(** A loop whose body cannot fail. *)
Definition for_ {S : Type} (l : list Z) (body : Z -> S -> S) (s : S) : S :=
  fold_left (fun s i => body i s) l s.

(** Two nested loops over a grid, [i] outside and [j] inside:
    [for (i < Nx) for (j < Nz) body]. *)
Definition grid {S : Type} (Nx Nz : Z) (body : Z -> Z -> S -> result S) (s : S)
  : result S :=
  forM (range Nx) (fun i s => forM (range Nz) (fun j s => body i j s) s) s.

(** [v.at(i)]: bounds-checked read; a negative [int] converts to a huge
    [size_t] and is out of range too. *)
Definition at_ {A : Type} (v : list A) (i : Z) : result A :=
  if i <? 0 then Throw out_of_range
  else match nth_error v (Z.to_nat i) with
       | Some a => Ok a
       | None => Throw out_of_range
       end.

(** Conversions to the unsigned integer types. *)
Definition to_uint (n : Z) : Z := n mod 2 ^ 32.
Definition to_uchar (n : Z) : Z := n mod 2 ^ 8.

Definition INT_MIN : Z := - 2 ^ 31.
Definition INT_MAX : Z := 2 ^ 31 - 1.

(** ** Floating-point arithmetic *)

Class Arith : Type := {
  float : Type;
  double : Type;
  f_of_int : Z -> float;                 (* (float)n *)
  fadd : float -> float -> float;
  fsub : float -> float -> float;
  fmul : float -> float -> float;
  fdiv : float -> float -> float;
  flt : float -> float -> bool;          (* a < b *)
  ftrunc : float -> option Z;            (* fractional part discarded *)
  d_of_int : Z -> double;                (* (double)n *)
  d_of_float : float -> double;          (* promotion *)
  f_of_double : double -> float;         (* narrowing *)
  dadd : double -> double -> double;
  dmul : double -> double -> double;
  ddiv : double -> double -> double;
  dtrunc : double -> option Z
}.

(** [sqrt] on [float]; an arithmetic has it when it can represent the
    result. *)
Class Sqrt (A : Arith) : Type := {
  fsqrt : float -> float
}.

(** A decimal literal [n/d] with the suffix [f], and without: both operands
    are exact, so the correctly rounded quotient is the literal's value. *)
Definition flit {A : Arith} (n d : Z) : float := fdiv (f_of_int n) (f_of_int d).
Definition dlit {A : Arith} (n d : Z) : double := ddiv (d_of_int n) (d_of_int d).

(** A floating-point value converted to an integer type: the conversion
    truncates, and its behaviour is undefined when the truncated value is not
    a value of the destination type.  [None] is that case: the value that
    results is indeterminate. *)
Definition int_of_float {A : Arith} (x : float) : option Z :=
  match ftrunc x with
  | Some z => if (INT_MIN <=? z) && (z <=? INT_MAX) then Some z else None
  | None => None
  end.

Definition uchar_of_double {A : Arith} (x : double) : option Z :=
  match dtrunc x with
  | Some z => if (0 <=? z) && (z <=? 255) then Some z else None
  | None => None
  end.

(** A conversion without a defined result is undefined behaviour of the
    statement that evaluates it. *)
Definition defined {T : Type} (o : option T) : result T :=
  match o with
  | Some v => Ok v
  | None => Undefined
  end.

(** *** IEEE-754 binary32 and binary64 *)

Module B32.
Definition prec : Z := 24.
Definition emax : Z := 128.
Definition of_Z (n : Z) : spec_float := binary_normalize prec emax n 0 false.
Definition add := SFadd prec emax.
Definition sub := SFsub prec emax.
Definition mul := SFmul prec emax.
Definition div := SFdiv prec emax.
Definition sqrt := SFsqrt prec emax.
Definition ltb := SFltb.
Definition leb := SFleb.
End B32.

Module B64.
Definition prec : Z := 53.
Definition emax : Z := 1024.
Definition of_Z (n : Z) : spec_float := binary_normalize prec emax n 0 false.
Definition add := SFadd prec emax.
Definition mul := SFmul prec emax.
Definition div := SFdiv prec emax.
End B64.

(** The same number in the format [prec], [emax], rounded if it has to be. *)
Definition SFconvert (prec emax : Z) (x : spec_float) : spec_float :=
  match x with
  | S754_finite s m e => binary_round prec emax s m e
  | _ => x
  end.

(** The integer part of a finite value, rounded toward zero. *)
Definition SFtrunc (x : spec_float) : option Z :=
  match x with
  | S754_zero _ => Some 0
  | S754_finite s m e => Some (cond_Zopp s (Z.shiftl (Zpos m) e))
  | S754_infinity _ | S754_nan => None
  end.

(** The rational a finite value denotes. *)
Definition SF2Q (x : spec_float) : option Q :=
  match x with
  | S754_zero _ => Some 0%Q
  | S754_finite s m e =>
      Some (inject_Z (cond_Zopp s (Zpos m)) * Qpower 2 e)%Q
  | S754_infinity _ | S754_nan => None
  end.

#[export] Instance IEEE : Arith := {|
  float := spec_float;
  double := spec_float;
  f_of_int := B32.of_Z;
  fadd := B32.add;
  fsub := B32.sub;
  fmul := B32.mul;
  fdiv := B32.div;
  flt := B32.ltb;
  ftrunc := SFtrunc;
  d_of_int := B64.of_Z;
  d_of_float := SFconvert B64.prec B64.emax;
  f_of_double := SFconvert B32.prec B32.emax;
  dadd := B64.add;
  dmul := B64.mul;
  ddiv := B64.div;
  dtrunc := SFtrunc
|}.

#[export] Instance IEEE_sqrt : Sqrt IEEE := {| fsqrt := B32.sqrt |}.

(** *** Exact arithmetic on the denoted rationals *)

Definition Qtrunc (q : Q) : Z := Z.quot (Qnum q) (Zpos (Qden q)).
Definition Qltb (a b : Q) : bool := negb (Qle_bool b a).

#[export] Instance Exact : Arith := {|
  float := Q;
  double := Q;
  f_of_int := inject_Z;
  fadd := Qplus;
  fsub := Qminus;
  fmul := Qmult;
  fdiv := Qdiv;
  flt := Qltb;
  ftrunc := fun q => Some (Qtrunc q);
  d_of_int := inject_Z;
  d_of_float := fun q => q;
  f_of_double := fun q => q;
  dadd := Qplus;
  dmul := Qmult;
  ddiv := Qdiv;
  dtrunc := fun q => Some (Qtrunc q)
|}.

(** ** The C library *)

Class Libc (A : Arith) : Type := {
  RAND_MAX : Z;
  rng : Type;                            (* the hidden state of rand() *)
  rand : rng -> Z * rng;
  sin : float -> float;
  cos : float -> float
}.

(** What the C standard promises of [rand]. *)
Definition rand_in_range {A : Arith} (L : Libc A) : Prop :=
  32767 <= RAND_MAX /\ forall g : rng, 0 <= fst (rand g) <= RAND_MAX.

(** ** glm vectors *)

Record vec2 (F : Type) : Type := mkvec2 { v2x : F; v2y : F }.
Record vec3 (F : Type) : Type := mkvec3 { v3x : F; v3y : F; v3z : F }.

(** ** OpenGL draw commands *)

Inductive primitive : Type := GL_TRIANGLE_STRIP.

(** [glDrawElements(mode, count, GL_UNSIGNED_INT, (void* )offset)]: [count]
    indices are read from the bound element buffer, starting [offset] bytes
    into it. *)
Record DrawElements : Type := {
  de_mode : primitive;
  de_count : Z;
  de_offset : Z
}.

Definition sizeof_uint : Z := 4.
Definition to_size_t (n : Z) : Z := n mod 2 ^ 64.

(** The positions [first, last) of the element buffer a draw command reads. *)
Definition index_span (c : DrawElements) : Z * Z :=
  (de_offset c / sizeof_uint, de_offset c / sizeof_uint + de_count c).

(** ** water.h, water.cpp *)

Module Water.
Section Methods.
Context {A : Arith} {L : Libc A}.

Definition MAXFREQ : float := f_of_int 1.       (* 1.0f *)
Definition MAXSPED : float := flit 5 1000.      (* 0.005f *)
Definition half : double := dlit 1 2.           (* 0.5 *)

(** The members of [class Water].  [internalTime] is [None] while it is
    uninitialised; [vbo_data] and [ebo_data] are the data stores of the
    buffer objects named by [VBO] and [EBO], [None] before [glBufferData]
    creates them. *)
Record t : Type := {
  vertices : list float;
  indices : list Z;
  internalTime : option float;
  vbo_data : option (list float);
  ebo_data : option (list Z);
  pX : Z; pZ : Z; pW : Z; pL : Z; pDimX : Z; pDimZ : Z;
  maxA : float;
  maxI : Z;
  directional : bool;
  rounded : bool;
  animated : bool;
  Ai : list float;
  wi : list float;
  Di : list (vec2 float);
  Si : list float
}.

Definition set_vertices (v : list float) (w : t) : t :=
  {| vertices := v; indices := indices w; internalTime := internalTime w;
     vbo_data := vbo_data w; ebo_data := ebo_data w;
     pX := pX w; pZ := pZ w; pW := pW w; pL := pL w;
     pDimX := pDimX w; pDimZ := pDimZ w; maxA := maxA w; maxI := maxI w;
     directional := directional w; rounded := rounded w;
     animated := animated w;
     Ai := Ai w; wi := wi w; Di := Di w; Si := Si w |}.

Definition set_indices (v : list Z) (w : t) : t :=
  {| vertices := vertices w; indices := v; internalTime := internalTime w;
     vbo_data := vbo_data w; ebo_data := ebo_data w;
     pX := pX w; pZ := pZ w; pW := pW w; pL := pL w;
     pDimX := pDimX w; pDimZ := pDimZ w; maxA := maxA w; maxI := maxI w;
     directional := directional w; rounded := rounded w;
     animated := animated w;
     Ai := Ai w; wi := wi w; Di := Di w; Si := Si w |}.

Definition set_internalTime (v : option float) (w : t) : t :=
  {| vertices := vertices w; indices := indices w; internalTime := v;
     vbo_data := vbo_data w; ebo_data := ebo_data w;
     pX := pX w; pZ := pZ w; pW := pW w; pL := pL w;
     pDimX := pDimX w; pDimZ := pDimZ w; maxA := maxA w; maxI := maxI w;
     directional := directional w; rounded := rounded w;
     animated := animated w;
     Ai := Ai w; wi := wi w; Di := Di w; Si := Si w |}.

Definition set_vbo_data (v : option (list float)) (w : t) : t :=
  {| vertices := vertices w; indices := indices w;
     internalTime := internalTime w;
     vbo_data := v; ebo_data := ebo_data w;
     pX := pX w; pZ := pZ w; pW := pW w; pL := pL w;
     pDimX := pDimX w; pDimZ := pDimZ w; maxA := maxA w; maxI := maxI w;
     directional := directional w; rounded := rounded w;
     animated := animated w;
     Ai := Ai w; wi := wi w; Di := Di w; Si := Si w |}.

Definition set_ebo_data (v : option (list Z)) (w : t) : t :=
  {| vertices := vertices w; indices := indices w;
     internalTime := internalTime w;
     vbo_data := vbo_data w; ebo_data := v;
     pX := pX w; pZ := pZ w; pW := pW w; pL := pL w;
     pDimX := pDimX w; pDimZ := pDimZ w; maxA := maxA w; maxI := maxI w;
     directional := directional w; rounded := rounded w;
     animated := animated w;
     Ai := Ai w; wi := wi w; Di := Di w; Si := Si w |}.

(** One wave appended to the four parallel vectors. *)
Definition push_wave (a om : float) (d : vec2 float) (s : float) (w : t) : t :=
  {| vertices := vertices w; indices := indices w;
     internalTime := internalTime w;
     vbo_data := vbo_data w; ebo_data := ebo_data w;
     pX := pX w; pZ := pZ w; pW := pW w; pL := pL w;
     pDimX := pDimX w; pDimZ := pDimZ w; maxA := maxA w; maxI := maxI w;
     directional := directional w; rounded := rounded w;
     animated := animated w;
     Ai := Ai w ++ [a]; wi := wi w ++ [om]; Di := Di w ++ [d];
     Si := Si w ++ [s] |}.

(** [randFloat]: [(float)rand() / ((float)RAND_MAX / x)]. *)
Definition randFloat (x : float) (g : rng) : float * rng :=
  let (r, g') := rand g in
  (fdiv (f_of_int r) (fdiv (f_of_int RAND_MAX) x), g').

(** [u*0.5 + MAXFREQ*0.5]: the literal [0.5] is a [double], so the sum is
    formed in [double] and narrowed when it is stored in a [vector<float>]. *)
Definition halved_plus_half_freq (u : float) : float :=
  f_of_double (dadd (dmul (d_of_float u) half) (dmul (d_of_float MAXFREQ) half)).

(** [u*2-1] *)
Definition twice_minus_one (u : float) : float :=
  fsub (fmul u (f_of_int 2)) (f_of_int 1).

(** The body of the loop of the constructor.  The two components of [Di]
    are drawn left to right (C++ leaves the order of the two calls open). *)
Definition ctor_body (mA : float) (_ : Z) (s : t * rng) : t * rng :=
  let (w, g) := s in
  let (a, g1) := randFloat mA g in
  let (u, g2) := randFloat MAXFREQ g1 in
  let (dx, g3) := randFloat (f_of_int 1) g2 in
  let (dy, g4) := randFloat (f_of_int 1) g3 in
  let (v, g5) := randFloat MAXSPED g4 in
  (push_wave a (halved_plus_half_freq u)
             (mkvec2 (twice_minus_one dx) (twice_minus_one dy))
             (halved_plus_half_freq v) w,
   g5).

Definition dot (a b : vec2 float) : float :=
  fadd (fmul (v2x a) (v2x b)) (fmul (v2y a) (v2y b)).

(** The phase [dot(D, (x, y)) * w + S * w * t] of wave [i]. *)
Definition phase (D : vec2 float) (om S x y t0 : float) : float :=
  fadd (fmul (dot D (mkvec2 x y)) om) (fmul (fmul S om) t0).

(** [W]: no [return] is reached outside the directional, rounded mode. *)
Definition W (w : t) (i : Z) (x y t0 : float) : result float :=
  a <- at_ (Ai w) i ;;
  om <- at_ (wi w) i ;;
  D <- at_ (Di w) i ;;
  S <- at_ (Si w) i ;;
  if directional w && rounded w
  then Ok (fmul a (sin (phase D om S x y t0)))
  else Undefined.

Definition ddxW (w : t) (i : Z) (x y t0 : float) : result float :=
  a <- at_ (Ai w) i ;;
  om <- at_ (wi w) i ;;
  D <- at_ (Di w) i ;;
  S <- at_ (Si w) i ;;
  if directional w && rounded w
  then Ok (fmul (fmul (fmul om (v2x D)) a) (cos (phase D om S x y t0)))
  else Undefined.

Definition ddyW (w : t) (i : Z) (x y t0 : float) : result float :=
  a <- at_ (Ai w) i ;;
  om <- at_ (wi w) i ;;
  D <- at_ (Di w) i ;;
  S <- at_ (Si w) i ;;
  if directional w && rounded w
  then Ok (fmul (fmul (fmul om (v2y D)) a) (cos (phase D om S x y t0)))
  else Undefined.

(** [float summ = 0; for (i < maxI) summ += term(i, x, y, t); return summ;] *)
Definition sum_waves (term : Z -> result float) (n : Z) : result float :=
  forM (range n) (fun i summ => v <- term i ;; Ok (fadd summ v)) (f_of_int 0).

Definition H (w : t) (x y t0 : float) : result float :=
  sum_waves (fun i => W w i x y t0) (maxI w).

Definition ddxH (w : t) (x y t0 : float) : result float :=
  sum_waves (fun i => ddxW w i x y t0) (maxI w).

Definition ddyH (w : t) (x y t0 : float) : result float :=
  sum_waves (fun i => ddyW w i x y t0) (maxI w).

Definition B (w : t) (x y t0 : float) : result (vec3 float) :=
  hx <- ddxH w x y t0 ;;
  Ok (mkvec3 (f_of_int 1) (f_of_int 0) hx).

Definition T (w : t) (x y t0 : float) : result (vec3 float) :=
  hy <- ddyH w x y t0 ;;
  Ok (mkvec3 (f_of_int 0) (f_of_int 1) hy).

Definition N (w : t) (x y t0 : float) : result (vec3 float) :=
  hx <- ddxH w x y t0 ;;
  hy <- ddyH w x y t0 ;;
  Ok (mkvec3 (fsub (f_of_int 0) hx) (fsub (f_of_int 0) hy) (f_of_int 1)).

(** [updateTime]: [internalTime += dT], which reads [internalTime]. *)
Definition updateTime (dT : float) (w : t) : result t :=
  match internalTime w with
  | Some t0 => Ok (set_internalTime (Some (fadd t0 dT)) w)
  | None => Undefined
  end.

(** [c - e / 2 + (float)i * e / n], as C++ groups and types it: the
    difference and the quotient by 2 are formed in [int], the rest in
    [float].  The difference is written in [Z]: it is the [int] of the
    program as long as it lies between [INT_MIN] and [INT_MAX], which the
    statements about the coordinates assume; beyond, the program overflows. *)
Definition sample (c e n i : Z) : float :=
  fadd (f_of_int (c - Z.quot e 2))
       (fdiv (fmul (f_of_int i) (f_of_int e)) (f_of_int n)).

(** The six floats pushed for the grid sample (i, j). *)
Definition vertex (w : t) (i j : Z) : result (list float) :=
  let x := sample (pX w) (pW w) (pDimX w) i in
  let z := sample (pZ w) (pL w) (pDimZ w) j in
  match internalTime w with
  | None => Undefined
  | Some t0 =>
      y <- H w x z t0 ;;
      normal <- N w x z t0 ;;
      Ok [x; y; z; v3x normal; v3y normal; v3z normal]
  end.

(** The loop "setup vertices", shared by [setupMesh] and [updateMesh]. *)
Definition push_vertices (w : t) (vs : list float) : result (list float) :=
  grid (pDimX w) (pDimZ w) (fun i j vs =>
    v <- vertex w i j ;; Ok (vs ++ v)) vs.

(** The loop "setup indices". *)
Definition push_indices (w : t) (ixs : list Z) : list Z :=
  for_ (range (pDimZ w - 1)) (fun i ixs =>
    for_ (range (pDimX w)) (fun j ixs =>
      for_ (range 2) (fun k ixs =>
        ixs ++ [to_uint (j + pDimX w * (i + k))]) ixs) ixs) ixs.

(** [setupMesh].  [glBufferData] creates the data store of the bound
    buffer object and copies the vector into it (of an empty vector, zero
    bytes are copied). *)
Definition setupMesh (w : t) : result t :=
  vs <- push_vertices w (vertices w) ;;
  let w1 := set_vertices vs w in
  let w2 := set_indices (push_indices w1 (indices w1)) w1 in
  let w3 := set_vbo_data (Some (vertices w2)) w2 in
  Ok (set_ebo_data (Some (indices w3)) w3).

(** [glBufferSubData(target, 0, size, data)]: the first [size] bytes of an
    existing store are overwritten; a range that leaves the store is a GL
    error and changes nothing. *)
Definition buffer_sub_data {E : Type} (data : list E) (store : option (list E))
  : option (list E) :=
  match store with
  | Some old =>
      if (length data <=? length old)%nat
      then Some (data ++ skipn (length data) old)
      else Some old
  | None => None
  end.

(** [updateMesh] *)
Definition updateMesh (w : t) : result t :=
  let w1 := set_indices [] (set_vertices [] w) in
  vs <- push_vertices w1 (vertices w1) ;;
  let w2 := set_vertices vs w1 in
  Ok (set_vbo_data (buffer_sub_data (vertices w2) (vbo_data w2)) w2).

(** [draw]: the [glDrawElements] calls it issues, in order. *)
Definition draw (w : t) : list DrawElements :=
  for_ (range (pDimZ w - 1)) (fun i calls =>
    calls ++ [ {| de_mode := GL_TRIANGLE_STRIP;
                  de_count := pDimX w;
                  de_offset := to_size_t (sizeof_uint * pDimX w * i) |} ]) [].

(** The constructor [Water::Water]. *)
Definition new (px pz pw pl pdimx pdimz : Z) (mA : float) (mI : Z)
           (dir rnd anim : bool) (g : rng) : result (t * rng) :=
  let w0 := {| vertices := []; indices := []; internalTime := None;
               vbo_data := None; ebo_data := None;
               pX := px; pZ := pz; pW := pw; pL := pl;
               pDimX := pdimx; pDimZ := pdimz; maxA := mA; maxI := mI;
               directional := dir; rounded := rnd; animated := anim;
               Ai := []; wi := []; Di := []; Si := [] |} in
  if dir && rnd then
    let (w1, g1) := for_ (range mI) (ctor_body mA) (w0, g) in
    let w2 := set_internalTime (Some (f_of_int 0)) w1 in
    w3 <- setupMesh w2 ;;
    Ok (w3, g1)
  else Ok (w0, g).

End Methods.
End Water.

(** ** kernel.cpp: the two textures built by [Kernel::start] *)

(** An array obtained from [new unsigned char[n]].  A cell is [None] while
    its byte is indeterminate. *)
Record bytes : Type := {
  size : Z;
  cell : Z -> option Z
}.

Definition new_bytes (n : Z) : bytes := {| size := n; cell := fun _ => None |}.

(** [a[idx] = v]; a write outside the array is undefined behaviour. *)
Definition store (idx : Z) (v : option Z) (a : bytes) : result bytes :=
  if (0 <=? idx) && (idx <? size a)
  then Ok {| size := size a;
             cell := fun k => if k =? idx then v else cell a k |}
  else Undefined.

(** [i * pdimZ*3 + j*3 + k] *)
Definition texel (pdimZ i j k : Z) : Z := i * pdimZ * 3 + j * 3 + k.

Module Kernel.
Section Textures.
Context {A : Arith} {L : Libc A}.

(** [(unsigned char)((c / 2 + 0.5) * 256)]: the quotient is a [float], the
    sum and the product are [double]. *)
Definition encode (c : float) : option Z :=
  uchar_of_double
    (dmul (dadd (d_of_float (fdiv c (f_of_int 2))) Water.half) (d_of_int 256)).

(** The body of the loop that fills [data]: three times a conversion and a
    store. *)
Definition normal_texel (w : Water.t) (pX pZ pW pL pdimX pdimZ i j : Z)
           (data : bytes) : result bytes :=
  let x := Water.sample pX pW pdimX i in
  let z := Water.sample pZ pL pdimZ j in
  normal <- Water.N w x z (f_of_int 0) ;;
  b0 <- defined (encode (v3x normal)) ;;
  d0 <- store (texel pdimZ i j 0) (Some b0) data ;;
  b1 <- defined (encode (v3y normal)) ;;
  d1 <- store (texel pdimZ i j 1) (Some b1) d0 ;;
  b2 <- defined (encode (v3z normal)) ;;
  store (texel pdimZ i j 2) (Some b2) d1.

(** The array [data] when the loop is left. *)
Definition normal_map (w : Water.t) (pX pZ pW pL pdimX pdimZ : Z)
  : result bytes :=
  grid pdimX pdimZ (normal_texel w pX pZ pW pL pdimX pdimZ)
       (new_bytes (pdimX * pdimZ * 3)).

(** [Kernel::update] *)
Definition update (dt : float) (w : Water.t) : result Water.t :=
  w1 <- Water.updateTime dt w ;;
  Water.updateMesh w1.

Context {R : Sqrt A}.

(** [(float)abs(center - i) / pdim * 2] *)
Definition dist (center i pdim : Z) : float :=
  fmul (fdiv (f_of_int (Z.abs (center - i))) (f_of_int pdim)) (f_of_int 2).

(** [distance]: [sqrt((float)(distX*distX + distY*distY))] *)
Definition distance (pdimX pdimZ i j : Z) : float :=
  let centerX := Z.quot pdimX 2 in
  let centerY := Z.quot pdimZ 2 in
  let distX := dist centerX i pdimX in
  let distY := dist centerY j pdimZ in
  fsqrt (fadd (fmul distX distX) (fmul distY distY)).

(** [val]: [(1 - distance > 0) ? (int)((1.0f - 2*distance)*256) : 0] *)
Definition refract_val (pdimX pdimZ i j : Z) : option Z :=
  let d := distance pdimX pdimZ i j in
  if flt (f_of_int 0) (fsub (f_of_int 1) d)
  then int_of_float
         (fmul (fsub (f_of_int 1) (fmul (f_of_int 2) d)) (f_of_int 256))
  else Some 0.

(** [(unsigned char)val] *)
Definition refract_byte (pdimX pdimZ i j : Z) : option Z :=
  option_map to_uchar (refract_val pdimX pdimZ i j).

(** The body of the loop that fills [refract]: the conversion of the value
    to [int], then three stores of its byte. *)
Definition refract_texel (pdimX pdimZ i j : Z) (refract : bytes)
  : result bytes :=
  v <- defined (refract_byte pdimX pdimZ i j) ;;
  r0 <- store (texel pdimZ i j 0) (Some v) refract ;;
  r1 <- store (texel pdimZ i j 1) (Some v) r0 ;;
  store (texel pdimZ i j 2) (Some v) r1.

(** The array [refract] when the loop is left. *)
Definition refract_map (pdimX pdimZ : Z) : result bytes :=
  grid pdimX pdimZ (refract_texel pdimX pdimZ) (new_bytes (pdimX * pdimZ * 3)).

End Textures.
End Kernel.

(** ** A C library to run the examples with

    [rand] is the portable generator the C standard gives as an example,
    with [RAND_MAX] 32767 and the seed 1 of a program that never calls
    [srand].  [sin] and [cos] are not computed: they return NaN, and the
    examples below are chosen so that no call of them is reached (a wave set
    without waves, or a grid without samples). *)
Definition lcg_rand (next : Z) : Z * Z :=
  let next' := (next * 1103515245 + 12345) mod 2 ^ 32 in
  ((next' / 65536) mod 32768, next').

#[export] Instance libc : Libc IEEE := {|
  RAND_MAX := 32767;
  rng := Z;
  rand := lcg_rand;
  sin := fun _ : @float IEEE => S754_nan;
  cos := fun _ : @float IEEE => S754_nan
|}.

(** The same generator over exact arithmetic; its [sin] and [cos] are not
    computed either. *)
#[export] Instance libc_exact : Libc Exact := {|
  RAND_MAX := 32767;
  rng := Z;
  rand := lcg_rand;
  sin := fun _ : @float Exact => 0%Q;
  cos := fun _ : @float Exact => 0%Q
|}.

(** ** Vocabulary of the properties *)

Section Vocabulary.
Context {A : Arith} {L : Libc A}.

(** A water whose waves can be evaluated: the mode is the implemented one,
    the clock is initialised and each of the four vectors holds [maxI]
    entries. *)
Definition ready (w : Water.t) : Prop :=
  Water.directional w && Water.rounded w = true /\
  Water.internalTime w <> None /\
  length (Water.Ai w) = Z.to_nat (Water.maxI w) /\
  length (Water.wi w) = Z.to_nat (Water.maxI w) /\
  length (Water.Di w) = Z.to_nat (Water.maxI w) /\
  length (Water.Si w) = Z.to_nat (Water.maxI w).

(** The members no method writes after the constructor. *)
Definition patch (w : Water.t) : Z * Z * Z * Z * Z * Z :=
  (Water.pX w, Water.pZ w, Water.pW w, Water.pL w,
   Water.pDimX w, Water.pDimZ w).

Definition waves (w : Water.t)
  : Z * bool * bool * list float * list float * list (vec2 float) * list float :=
  (Water.maxI w, Water.directional w, Water.rounded w,
   Water.Ai w, Water.wi w, Water.Di w, Water.Si w).

(** Everything but the four wave vectors. *)
Definition rest (w : Water.t) :=
  (Water.vertices w, Water.indices w, Water.internalTime w,
   Water.vbo_data w, Water.ebo_data w, patch w, Water.maxA w,
   Water.maxI w, Water.directional w, Water.rounded w, Water.animated w).

(** The vertices already pushed when [m] samples are done. *)
Definition pushed (w : Water.t) (m : Z) (vs : list float) : Prop :=
  length vs = Z.to_nat (6 * m) /\
  forall i j, 0 <= i < Water.pDimX w -> 0 <= j < Water.pDimZ w ->
    i * Water.pDimZ w + j < m ->
    exists v, Water.vertex w i j = Ok v /\
      forall p, (p < 6)%nat ->
        nth_error vs (Z.to_nat (6 * (i * Water.pDimZ w + j)) + p)
        = nth_error v p.

(** The states a water goes through once it is constructed: any sequence
    of calls of [updateTime] and [updateMesh] that return. *)
Inductive later (w0 : Water.t) : Water.t -> Prop :=
| later_new : later w0 w0
| later_updateTime (dT : float) (w w' : Water.t) :
    later w0 w -> Water.updateTime dT w = Ok w' -> later w0 w'
| later_updateMesh (w w' : Water.t) :
    later w0 w -> Water.updateMesh w = Ok w' -> later w0 w'.

(** A water whose vertex buffer has just been written: it leaves the
    constructor in the directional, rounded mode, or [updateMesh]. *)
Definition meshed (w : Water.t) : Prop :=
  (exists px pz pw pl pdimx pdimz mA mI anim g g',
      Water.new px pz pw pl pdimx pdimz mA mI true true anim g = Ok (w, g')) \/
  (exists w1, Water.updateMesh w1 = Ok w).

End Vocabulary.

(** The bounds of the specification on the frequency and on the phase speed,
    and the ranges of a wave set whose amplitudes satisfy [PA], in exact
    arithmetic. *)
Definition omega_max : Q := Water.MAXFREQ (A := Exact).
Definition S_max : Q := Water.MAXSPED (A := Exact).

Definition amplitude_range (A_max a : Q) : Prop := (0 <= a <= A_max)%Q.
Definition frequency_range (om : Q) : Prop :=
  (omega_max / 2 <= om <= omega_max)%Q.
Definition direction_range (d : vec2 Q) : Prop :=
  (-1 <= v2x d <= 1)%Q /\ (-1 <= v2y d <= 1)%Q.
Definition speed_range (s : Q) : Prop :=
  (omega_max / 2 <= s <= omega_max / 2 + S_max / 2)%Q.

Definition wave_ranges (PA : Q -> Prop) (w : Water.t (A := Exact)) : Prop :=
  Forall PA (Water.Ai w) /\
  Forall frequency_range (Water.wi w) /\
  Forall direction_range (Water.Di w) /\
  Forall speed_range (Water.Si w).

(** The byte the specification gives to a component [c] of the normal:
    [floor((c/2 + 0.5) * 256)]. *)
Definition spec_encode (c : Q) : Z := Qfloor ((c / 2 + (1 # 2)) * 256)%Q.

(** The texels written when [m] samples of the grid are done hold the three
    bytes [px i j] gives for them. *)
Definition written (Nx Nz : Z) (px : Z -> Z -> Z -> option Z -> Prop)
           (m : Z) (a : bytes) : Prop :=
  size a = Nx * Nz * 3 /\
  forall i j k, 0 <= i < Nx -> 0 <= j < Nz -> 0 <= k < 3 -> i * Nz + j < m ->
    px i j k (cell a (texel Nz i j k)).

(** The value the specification gives to a texel of the caustic texture at
    the distance [d] of the centre: [max(0, floor((1 - 2d) * 256))]. *)
Definition spec_refract (d : Q) : Z := Z.max 0 (Qfloor ((1 - 2 * d) * 256)%Q).

(** The ranges of the specification, decided on a wave set built in IEEE
    arithmetic. *)
Definition in_ranges_IEEE (A_max : spec_float) (w : Water.t (A := IEEE))
  : bool :=
  let zero := B32.of_Z 0 in
  let one := B32.of_Z 1 in
  let minus_one := B32.of_Z (-1) in
  let half_omega_max := B32.div (Water.MAXFREQ (A := IEEE)) (B32.of_Z 2) in
  forallb (fun a => B32.leb zero a && B32.leb a A_max) (Water.Ai w) &&
  forallb (fun om => B32.leb half_omega_max om
                     && B32.leb om (Water.MAXFREQ (A := IEEE))) (Water.wi w) &&
  forallb (fun d => B32.leb minus_one (v2x d) && B32.leb (v2x d) one
                    && B32.leb minus_one (v2y d) && B32.leb (v2y d) one)
          (Water.Di w) &&
  forallb (fun s => B32.leb half_omega_max s) (Water.Si w).

(** The ranges of the frequency, of the direction and of the speed, decided
    on a wave set built in IEEE arithmetic. *)
Definition freq_dir_speed_IEEE (w : Water.t (A := IEEE)) : bool :=
  let one := B32.of_Z 1 in
  let minus_one := B32.of_Z (-1) in
  let half_omega_max := B32.div (Water.MAXFREQ (A := IEEE)) (B32.of_Z 2) in
  forallb (fun om => B32.leb half_omega_max om
                     && B32.leb om (Water.MAXFREQ (A := IEEE))) (Water.wi w) &&
  forallb (fun d => B32.leb minus_one (v2x d) && B32.leb (v2x d) one
                    && B32.leb minus_one (v2y d) && B32.leb (v2y d) one)
          (Water.Di w) &&
  forallb (fun s => B32.leb half_omega_max s) (Water.Si w).

(** The coordinate the specification gives to sample [i] of an axis with
    centre [c], extent [e] and [n] samples, read in the rationals:
    [c - e/2 + i*e/n]. *)
Definition spec_sample (c e n i : Z) : Q :=
  (inject_Z c - inject_Z e / 2 + inject_Z i * inject_Z e / inject_Z n)%Q.

(** The span of the index buffer the specification gives to strip [i]:
    [Nx*2*i, Nx*2*(i+1)). *)
Definition strip_span (Nx i : Z) : Z * Z := (Nx * 2 * i, Nx * 2 * (i + 1)).

(** The two indices pushed for row [i] and column [j]. *)
Definition strip_pair (Nx i j : Z) : list Z :=
  [to_uint (j + Nx * i); to_uint (j + Nx * (i + 1))].

(** ** kernel.cpp: the events of a frame

    [Kernel::handleEvents] drains the SDL event queue.  An event is read by
    its [type] and, under it, by the key symbol or the window event; the
    values the code does not name are the constructors [other].  The eight
    [bool] members the code keeps for the keys are read by name; a member is
    [None] while it is uninitialised, as the constructor leaves all of them.
    [reports] counts the camera reports written to [std::cout]. *)

Inductive keysym : Type :=
| SDLK_ESCAPE | SDLK_w | SDLK_a | SDLK_s | SDLK_d
| SDLK_SPACE | SDLK_LSHIFT | SDLK_RETURN
| SDLK_other (code : Z).

Inductive window_event : Type :=
| SDL_WINDOWEVENT_CLOSE
| window_other (code : Z).

Inductive SDL_Event : Type :=
| SDL_KEYDOWN (sym : keysym)
| SDL_KEYUP (sym : keysym)
| SDL_WINDOWEVENT (event : window_event)
| SDL_MOUSEMOTION (xrel yrel : Z)
| SDL_other (type : Z).

Inductive key_member : Type :=
| wDown | aDown | sDown | dDown | spDown | shDown | ctDown | enDown.

Definition key_member_eqb (m n : key_member) : bool :=
  match m, n with
  | wDown, wDown | aDown, aDown | sDown, sDown | dDown, dDown
  | spDown, spDown | shDown, shDown | ctDown, ctDown | enDown, enDown => true
  | _, _ => false
  end.

Module Events.

Record t : Type := {
  isRunning : bool;
  rx : Z;
  ry : Z;
  down : key_member -> option bool;
  relX : option Z;
  relY : option Z;
  reports : nat
}.

(** [Kernel::Kernel]: [rx = 0; ry = 0; isRunning = false;] *)
Definition new : t :=
  {| isRunning := false; rx := 0; ry := 0;
     down := fun _ => None; relX := None; relY := None; reports := 0 |}.

Definition set_isRunning (b : bool) (k : t) : t :=
  {| isRunning := b; rx := rx k; ry := ry k; down := down k;
     relX := relX k; relY := relY k; reports := reports k |}.

(** [member = b] *)
Definition set_down (m : key_member) (b : bool) (k : t) : t :=
  {| isRunning := isRunning k; rx := rx k; ry := ry k;
     down := fun n => if key_member_eqb n m then Some b else down k n;
     relX := relX k; relY := relY k; reports := reports k |}.

Definition set_rel (x y : Z) (k : t) : t :=
  {| isRunning := isRunning k; rx := rx k; ry := ry k; down := down k;
     relX := Some x; relY := Some y; reports := reports k |}.

Definition report (k : t) : t :=
  {| isRunning := isRunning k; rx := rx k; ry := ry k; down := down k;
     relX := relX k; relY := relY k; reports := S (reports k) |}.

(** The body of the [while] loop: the [switch] on the type of the event. *)
Definition dispatch (k : t) (e : SDL_Event) : t :=
  match e with
  | SDL_KEYDOWN sym =>
      match sym with
      | SDLK_ESCAPE => set_isRunning false k
      | SDLK_w => set_down wDown true k
      | SDLK_a => set_down aDown true k
      | SDLK_s => set_down sDown true k
      | SDLK_d => set_down dDown true k
      | SDLK_SPACE => set_down spDown true k
      | SDLK_LSHIFT => set_down shDown true k
      | SDLK_RETURN => report (set_down enDown true k)
      | SDLK_other _ => k
      end
  | SDL_KEYUP sym =>
      match sym with
      | SDLK_w => set_down wDown false k
      | SDLK_a => set_down aDown false k
      | SDLK_s => set_down sDown false k
      | SDLK_d => set_down dDown false k
      | SDLK_SPACE => set_down spDown false k
      | SDLK_LSHIFT => set_down shDown false k
      | SDLK_RETURN => set_down enDown false k
      | SDLK_ESCAPE | SDLK_other _ => k
      end
  | SDL_WINDOWEVENT event =>
      match event with
      | SDL_WINDOWEVENT_CLOSE => set_isRunning false k
      | window_other _ => k
      end
  | SDL_MOUSEMOTION xrel yrel => set_rel xrel yrel k
  | SDL_other _ => k
  end.

(** [handleEvents], run on the events [SDL_PollEvent] delivers, in order. *)
Definition handleEvents (queue : list SDL_Event) (k : t) : t :=
  fold_left dispatch queue (set_rel 0 0 k).

Section Direction.
(** The direction flags of camera.h, which is not part of the sources. *)
Variables NONE FORWARD LEFT BACKWARD RIGHT UP DOWN : Z.

(** [if (member) end |= flag;], which reads the member. *)
Definition or_if (k : t) (m : key_member) (flag : Z) (en : Z) : result Z :=
  match down k m with
  | Some true => Ok (Z.lor en flag)
  | Some false => Ok en
  | None => Undefined
  end.

(** The value of [end] that [Kernel::start] passes to the camera. *)
Definition direction (k : t) : result Z :=
  e1 <- or_if k wDown FORWARD NONE ;;
  e2 <- or_if k aDown LEFT e1 ;;
  e3 <- or_if k sDown BACKWARD e2 ;;
  e4 <- or_if k dDown RIGHT e3 ;;
  e5 <- or_if k spDown UP e4 ;;
  or_if k shDown DOWN e5.

End Direction.

(** The members when [Kernel::start] enters its main loop: it has run
    [rx = resx; ry = resy;] and [isRunning = true;] and has written no other
    member of those above. *)
Definition start_members (resx resy : Z) (k : t) : t :=
  {| isRunning := true; rx := resx; ry := resy; down := down k;
     relX := relX k; relY := relY k; reports := reports k |}.

End Events.

(** The members [Kernel::start] tests to steer the camera. *)
Definition movement : list key_member :=
  [wDown; aDown; sDown; dDown; spDown; shDown].

(** The member a key is tracked by, if it is. *)
Definition member_of (sym : keysym) : option key_member :=
  match sym with
  | SDLK_w => Some wDown
  | SDLK_a => Some aDown
  | SDLK_s => Some sDown
  | SDLK_d => Some dDown
  | SDLK_SPACE => Some spDown
  | SDLK_LSHIFT => Some shDown
  | SDLK_RETURN => Some enDown
  | SDLK_ESCAPE | SDLK_other _ => None
  end.

(** What an event says of the member [m]: pressed, released, or nothing. *)
Definition says (m : key_member) (e : SDL_Event) : option bool :=
  match e with
  | SDL_KEYDOWN sym =>
      match member_of sym with
      | Some n => if key_member_eqb m n then Some true else None
      | None => None
      end
  | SDL_KEYUP sym =>
      match member_of sym with
      | Some n => if key_member_eqb m n then Some false else None
      | None => None
      end
  | _ => None
  end.

(** The last thing a queue says of the member [m]. *)
Fixpoint last_said (m : key_member) (queue : list SDL_Event) : option bool :=
  match queue with
  | [] => None
  | e :: queue' =>
      match last_said m queue' with
      | Some b => Some b
      | None => says m e
      end
  end.

(** The last mouse motion of a queue. *)
Fixpoint last_motion (queue : list SDL_Event) : option (Z * Z) :=
  match queue with
  | [] => None
  | e :: queue' =>
      match last_motion queue' with
      | Some r => Some r
      | None => match e with
                | SDL_MOUSEMOTION x y => Some (x, y)
                | _ => None
                end
      end
  end.

(** An event that stops the main loop. *)
Definition quits (e : SDL_Event) : bool :=
  match e with
  | SDL_KEYDOWN SDLK_ESCAPE => true
  | SDL_WINDOWEVENT SDL_WINDOWEVENT_CLOSE => true
  | _ => false
  end.

Definition is_return_down (e : SDL_Event) : bool :=
  match e with
  | SDL_KEYDOWN SDLK_RETURN => true
  | _ => false
  end.

(** ** kernel.cpp: the frame counter of the main loop

    The main loop of [Kernel::start] counts its frames and shows, in the
    title of the window, a frame rate it computes again every 30 frames.
    The time [dt] a frame took comes from [std::chrono]; here it is given. *)

Module Fps.
Section Counter.
Context {A : Arith}.

Record t : Type := {
  frame : Z;
  curFPS : Z;
  sumFPS : float
}.

(** [int frame = 0; int curFPS = 0; float sumFPS = 0.001;] *)
Definition init : t :=
  {| frame := 0; curFPS := 0; sumFPS := f_of_double (dlit 1 1000) |}.

(** The head of the body of the loop:
    [frame ++; sumFPS += dt;
     if (frame % 30 == 1) { curFPS = (int)(30/sumFPS); sumFPS = 0; }] *)
Definition tick (dt : float) (s : t) : result t :=
  if INT_MAX <=? frame s then Undefined
  else
    let frame' := frame s + 1 in
    let sum' := fadd (sumFPS s) dt in
    if Z.rem frame' 30 =? 1
    then match int_of_float (fdiv (f_of_int 30) sum') with
         | Some n => Ok {| frame := frame'; curFPS := n; sumFPS := f_of_int 0 |}
         | None => Undefined
         end
    else Ok {| frame := frame'; curFPS := curFPS s; sumFPS := sum' |}.

(** The frames that take the times [dts], in order. *)
Fixpoint ticks (dts : list float) (s : t) : result t :=
  match dts with
  | [] => Ok s
  | dt :: dts' => s' <- tick dt s ;; ticks dts' s'
  end.

End Counter.
End Fps.

(** ** Vocabulary of the further properties *)

(** The state of [rand] after [n] calls. *)
Definition draws {A : Arith} {L : Libc A} (n : nat) (g : rng) : rng :=
  Nat.iter n (fun g => snd (rand g)) g.

(** Dot and cross product of vectors of rationals. *)
Definition dot3 (a b : vec3 Q) : Q :=
  (v3x a * v3x b + v3y a * v3y b + v3z a * v3z b)%Q.

Definition cross (a b : vec3 Q) : vec3 Q :=
  mkvec3 (v3y a * v3z b - v3z a * v3y b)%Q
         (v3z a * v3x b - v3x a * v3z b)%Q
         (v3x a * v3y b - v3y a * v3x b)%Q.

Definition vec3_eq (a b : vec3 Q) : Prop :=
  (v3x a == v3x b)%Q /\ (v3y a == v3y b)%Q /\ (v3z a == v3z b)%Q.

(** * Properties *)

(** ** Loops *)

Lemma range_length (n : Z) : length (range n) = Z.to_nat n.
Proof. unfold range. now rewrite length_map, length_seq. Qed.

Lemma range_In (n i : Z) : In i (range n) <-> 0 <= i < n.
Proof.
  unfold range. rewrite in_map_iff. split.
  - intros (k & <- & Hk). apply in_seq in Hk. lia.
  - intros Hi. exists (Z.to_nat i). split; [lia|]. apply in_seq. lia.
Qed.

Lemma range_nonpos (n : Z) : n <= 0 -> range n = [].
Proof.
  intros Hn. unfold range. replace (Z.to_nat n) with 0%nat by lia. reflexivity.
Qed.

Lemma range_succ (n : Z) : 0 <= n -> range (n + 1) = range n ++ [n].
Proof.
  intros Hn. unfold range.
  replace (Z.to_nat (n + 1)) with (S (Z.to_nat n)) by lia.
  rewrite seq_S, map_app. simpl. now rewrite Z2Nat.id.
Qed.

Lemma range_nth (n : Z) (k : nat) :
  (k < Z.to_nat n)%nat -> nth_error (range n) k = Some (Z.of_nat k).
Proof.
  intros Hk. unfold range. rewrite nth_error_map.
  rewrite nth_error_nth' with (d := 0%nat) by now rewrite length_seq.
  rewrite seq_nth by assumption. reflexivity.
Qed.

Lemma for_app {St : Type} (l1 l2 : list Z) (body : Z -> St -> St) (s : St) :
  for_ (l1 ++ l2) body s = for_ l2 body (for_ l1 body s).
Proof. apply fold_left_app. Qed.

Lemma forM_app {St : Type} (l1 l2 : list Z) (body : Z -> St -> result St) (s : St) :
  forM (l1 ++ l2) body s = (s1 <- forM l1 body s ;; forM l2 body s1).
Proof.
  revert s. induction l1 as [|i l1 IH]; intros s; simpl; [reflexivity|].
  destruct (body i s); simpl; auto.
Qed.

(** The invariant rule for [for (i = 0; i < n; i ++)]: [I i] holds when the
    body is entered with the counter at [i]. *)
Lemma for_range_inv {St : Type} (I : Z -> St -> Prop) (body : Z -> St -> St)
      (n : Z) (s0 : St) :
  I 0 s0 ->
  (forall i s, 0 <= i < n -> I i s -> I (i + 1) (body i s)) ->
  I (Z.max 0 n) (for_ (range n) body s0).
Proof.
  intros H0 Hstep.
  destruct (Z.le_gt_cases n 0) as [Hn|Hn].
  - rewrite range_nonpos by assumption. now replace (Z.max 0 n) with 0 by lia.
  - replace (Z.max 0 n) with n by lia.
    assert (Hgen : forall k : nat, Z.of_nat k <= n ->
              I (Z.of_nat k) (for_ (range (Z.of_nat k)) body s0)).
    { induction k as [|k IH]; intros Hk; [exact H0|].
      replace (Z.of_nat (S k)) with (Z.of_nat k + 1) by lia.
      rewrite range_succ, for_app by lia. simpl.
      apply Hstep; [lia|]. apply IH. lia. }
    specialize (Hgen (Z.to_nat n)). rewrite Z2Nat.id in Hgen by lia.
    apply Hgen. lia.
Qed.

Lemma forM_range_inv {St : Type} (I : Z -> St -> Prop)
      (body : Z -> St -> result St) (n : Z) (s0 s' : St) :
  I 0 s0 ->
  (forall i s s1, 0 <= i < n -> I i s -> body i s = Ok s1 -> I (i + 1) s1) ->
  forM (range n) body s0 = Ok s' ->
  I (Z.max 0 n) s'.
Proof.
  intros H0 Hstep.
  destruct (Z.le_gt_cases n 0) as [Hn|Hn].
  - rewrite range_nonpos by assumption. simpl. intros [= <-].
    now replace (Z.max 0 n) with 0 by lia.
  - replace (Z.max 0 n) with n by lia.
    assert (Hgen : forall k : nat, Z.of_nat k <= n -> forall s1,
              forM (range (Z.of_nat k)) body s0 = Ok s1 -> I (Z.of_nat k) s1).
    { induction k as [|k IH]; intros Hk s1.
      - simpl. now intros [= <-].
      - replace (Z.of_nat (S k)) with (Z.of_nat k + 1) by lia.
        rewrite range_succ, forM_app by lia.
        destruct (forM (range (Z.of_nat k)) body s0) as [s2| |] eqn:E;
          simpl; try discriminate.
        destruct (body (Z.of_nat k) s2) as [s3| |] eqn:E3;
          simpl; try discriminate.
        intros [= <-]. apply (Hstep (Z.of_nat k) s2); [lia| |assumption].
        apply IH; [lia|reflexivity]. }
    intros Hrun. specialize (Hgen (Z.to_nat n)).
    rewrite Z2Nat.id in Hgen by lia. apply Hgen; [lia|assumption].
Qed.

(** A loop returns when each run of its body does. *)
Lemma forM_returns {St : Type} (l : list Z) (body : Z -> St -> result St) :
  (forall i s, In i l -> exists s1, body i s = Ok s1) ->
  forall s, exists s', forM l body s = Ok s'.
Proof.
  induction l as [|i l IH]; intros Hbody s; simpl.
  - now exists s.
  - destruct (Hbody i s) as [s1 E]; [now left|]. rewrite E. simpl.
    apply IH. intros k s2 Hk. apply Hbody. now right.
Qed.

(** The invariant of the two loops over the grid is indexed by the number
    [i * Nz + j] of samples done. *)
Lemma grid_inv {St : Type} (I : Z -> St -> Prop) (body : Z -> Z -> St -> result St)
      (Nx Nz : Z) (s0 s' : St) :
  0 <= Nx -> 0 <= Nz ->
  I 0 s0 ->
  (forall i j s s1, 0 <= i < Nx -> 0 <= j < Nz ->
     I (i * Nz + j) s -> body i j s = Ok s1 -> I (i * Nz + j + 1) s1) ->
  grid Nx Nz body s0 = Ok s' ->
  I (Nx * Nz) s'.
Proof.
  intros HNx HNz H0 Hstep Hrun. unfold grid in Hrun.
  apply (forM_range_inv (fun i s => I (i * Nz) s)) in Hrun.
  - now replace (Z.max 0 Nx) with Nx in Hrun by lia.
  - exact H0.
  - intros i s s1 Hi HI Hrow.
    apply (forM_range_inv (fun j s => I (i * Nz + j) s)) in Hrow.
    + replace (Z.max 0 Nz) with Nz in Hrow by lia.
      now replace ((i + 1) * Nz) with (i * Nz + Nz) by lia.
    + now rewrite Z.add_0_r.
    + intros j s2 s3 Hj HI2 Hb.
      replace (i * Nz + (j + 1)) with (i * Nz + j + 1) by lia.
      now apply (Hstep i j s2 s3).
Qed.

Lemma grid_returns {St : Type} (body : Z -> Z -> St -> result St) (Nx Nz : Z) :
  (forall i j s, 0 <= i < Nx -> 0 <= j < Nz -> exists s1, body i j s = Ok s1) ->
  forall s, exists s', grid Nx Nz body s = Ok s'.
Proof.
  intros Hbody s. unfold grid. apply forM_returns. intros i s1 Hi.
  apply forM_returns. intros j s2 Hj.
  apply Hbody; now apply range_In.
Qed.

(** Two samples of the grid with the same rank are the same sample. *)
Lemma rank_inj (Nz i j i' j' : Z) :
  0 <= j < Nz -> 0 <= j' < Nz -> i * Nz + j = i' * Nz + j' -> i = i' /\ j = j'.
Proof.
  intros Hj Hj' E.
  assert (i = i') by nia. subst. split; [reflexivity|lia].
Qed.

Lemma rank_lt (Nx Nz i j : Z) :
  0 <= i < Nx -> 0 <= j < Nz -> 0 <= i * Nz + j < Nx * Nz.
Proof. intros Hi Hj. nia. Qed.

(** A loop that only appends one element per iteration. *)
Lemma for_push {E : Type} (f : Z -> E) (l : list Z) (s : list E) :
  for_ l (fun i s => s ++ [f i]) s = s ++ map f l.
Proof.
  unfold for_. revert s. induction l as [|i l IH]; intros s; simpl.
  - now rewrite app_nil_r.
  - rewrite IH, <- app_assoc. reflexivity.
Qed.

(** ** The members a method leaves alone *)

Section Frames.
Context {A : Arith} {L : Libc A}.

Lemma at_returns {E : Type} (v : list E) (i : Z) :
  0 <= i -> (Z.to_nat i < length v)%nat -> exists a, at_ v i = Ok a.
Proof.
  intros Hi Hlen. unfold at_.
  destruct (Z.ltb_spec i 0) as [|_]; [lia|].
  destruct (nth_error v (Z.to_nat i)) eqn:E0; [eauto|].
  apply nth_error_None in E0. lia.
Qed.

Lemma updateTime_frame (dT : float) (w w' : Water.t) :
  Water.updateTime dT w = Ok w' ->
  patch w' = patch w /\ waves w' = waves w /\
  Water.vertices w' = Water.vertices w /\
  Water.indices w' = Water.indices w /\
  Water.vbo_data w' = Water.vbo_data w /\
  Water.ebo_data w' = Water.ebo_data w /\
  Water.internalTime w' <> None.
Proof.
  unfold Water.updateTime. destruct (Water.internalTime w); [|discriminate].
  intros [= <-]. simpl. repeat split; discriminate.
Qed.

Lemma updateMesh_frame (w w' : Water.t) :
  Water.updateMesh w = Ok w' ->
  patch w' = patch w /\ waves w' = waves w /\
  Water.internalTime w' = Water.internalTime w /\
  Water.indices w' = [] /\
  Water.ebo_data w' = Water.ebo_data w.
Proof.
  unfold Water.updateMesh.
  destruct (Water.push_vertices _ _); simpl; try discriminate.
  intros [= <-]. simpl. repeat split.
Qed.

Lemma setupMesh_frame (w w' : Water.t) :
  Water.setupMesh w = Ok w' ->
  patch w' = patch w /\ waves w' = waves w /\
  Water.internalTime w' = Water.internalTime w /\
  Water.push_vertices w (Water.vertices w) = Ok (Water.vertices w') /\
  Water.indices w' = Water.push_indices w (Water.indices w) /\
  Water.vbo_data w' = Some (Water.vertices w') /\
  Water.ebo_data w' = Some (Water.indices w').
Proof.
  unfold Water.setupMesh.
  destruct (Water.push_vertices _ _) as [vs| |]; simpl; try discriminate.
  intros [= <-]. simpl. repeat split.
Qed.

Lemma ready_frame (w w' : Water.t) :
  waves w' = waves w -> Water.internalTime w' <> None -> ready w -> ready w'.
Proof.
  unfold waves, ready. intros [= -> -> -> -> -> -> ->] Ht (Hm & _ & Hl).
  repeat split; try assumption; apply Hl.
Qed.

End Frames.

(** ** The methods return *)

Lemma forM_ext {St : Type} (l : list Z) (body body' : Z -> St -> result St) :
  (forall i s, body i s = body' i s) ->
  forall s, forM l body s = forM l body' s.
Proof.
  intros E. induction l as [|i l IH]; intros s; simpl; [reflexivity|].
  rewrite E. destruct (body' i s); simpl; auto.
Qed.

Section Returns.
Context {A : Arith} {L : Libc A}.

Lemma sum_waves_returns (term : Z -> result float) (n : Z) :
  (forall i, 0 <= i < n -> exists v, term i = Ok v) ->
  exists v, Water.sum_waves term n = Ok v.
Proof.
  intros Hterm. unfold Water.sum_waves. apply forM_returns.
  intros i s Hi. apply range_In in Hi.
  destruct (Hterm i Hi) as [v E]. rewrite E. simpl. eauto.
Qed.

Lemma sum_waves_ext (term term' : Z -> result float) (n : Z) :
  (forall i, term i = term' i) ->
  Water.sum_waves term n = Water.sum_waves term' n.
Proof.
  intros E. unfold Water.sum_waves. apply forM_ext.
  intros i s. now rewrite E.
Qed.

(** The four reads of a wave succeed below [maxI]. *)
Ltac read_wave Hi Hl :=
  match goal with
  | |- context [at_ ?v ?i] =>
      let a := fresh "a" in
      let E := fresh "E" in
      destruct (@at_returns _ v i) as [a E];
      [lia | rewrite Hl; lia | rewrite E; simpl]
  end.

Lemma W_returns (w : Water.t) (i : Z) (x y t0 : float) :
  ready w -> 0 <= i < Water.maxI w -> exists v, Water.W w i x y t0 = Ok v.
Proof.
  intros (Hm & _ & HA & Hw & HD & HS) Hi. unfold Water.W.
  read_wave Hi HA. read_wave Hi Hw. read_wave Hi HD. read_wave Hi HS.
  rewrite Hm. eauto.
Qed.

Lemma ddxW_returns (w : Water.t) (i : Z) (x y t0 : float) :
  ready w -> 0 <= i < Water.maxI w -> exists v, Water.ddxW w i x y t0 = Ok v.
Proof.
  intros (Hm & _ & HA & Hw & HD & HS) Hi. unfold Water.ddxW.
  read_wave Hi HA. read_wave Hi Hw. read_wave Hi HD. read_wave Hi HS.
  rewrite Hm. eauto.
Qed.

Lemma ddyW_returns (w : Water.t) (i : Z) (x y t0 : float) :
  ready w -> 0 <= i < Water.maxI w -> exists v, Water.ddyW w i x y t0 = Ok v.
Proof.
  intros (Hm & _ & HA & Hw & HD & HS) Hi. unfold Water.ddyW.
  read_wave Hi HA. read_wave Hi Hw. read_wave Hi HD. read_wave Hi HS.
  rewrite Hm. eauto.
Qed.

Lemma H_returns (w : Water.t) (x y t0 : float) :
  ready w -> exists v, Water.H w x y t0 = Ok v.
Proof.
  intros Hr. apply sum_waves_returns. intros i Hi. now apply W_returns.
Qed.

Lemma N_returns (w : Water.t) (x y t0 : float) :
  ready w -> exists n, Water.N w x y t0 = Ok n.
Proof.
  intros Hr. unfold Water.N, Water.ddxH, Water.ddyH.
  destruct (@sum_waves_returns (fun i => Water.ddxW w i x y t0) (Water.maxI w))
    as [hx Ex]; [intros; now apply ddxW_returns|].
  destruct (@sum_waves_returns (fun i => Water.ddyW w i x y t0) (Water.maxI w))
    as [hy Ey]; [intros; now apply ddyW_returns|].
  rewrite Ex, Ey. simpl. eauto.
Qed.

Lemma vertex_returns (w : Water.t) (i j : Z) :
  ready w -> exists v, Water.vertex w i j = Ok v.
Proof.
  intros Hr. unfold Water.vertex.
  destruct (Water.internalTime w) as [t0|] eqn:Et;
    [|now destruct Hr as (_ & Ht & _)].
  match goal with |- context [Water.H w ?x ?z t0] =>
    destruct (@H_returns w x z t0 Hr) as [y Ey];
    destruct (@N_returns w x z t0 Hr) as [n En] end.
  rewrite Ey, En. simpl. eauto.
Qed.

Lemma push_vertices_returns (w : Water.t) (vs : list float) :
  ready w -> exists vs', Water.push_vertices w vs = Ok vs'.
Proof.
  intros Hr. unfold Water.push_vertices. apply grid_returns.
  intros i j s _ _. destruct (@vertex_returns w i j Hr) as [v E].
  rewrite E. simpl. eauto.
Qed.

Lemma setupMesh_returns (w : Water.t) :
  ready w -> exists w', Water.setupMesh w = Ok w'.
Proof.
  intros Hr. unfold Water.setupMesh.
  destruct (@push_vertices_returns w (Water.vertices w) Hr) as [vs E].
  rewrite E. simpl. eauto.
Qed.

(** What the waves, the patch and the clock determine. *)
Lemma vertex_ext (w w' : Water.t) (i j : Z) :
  patch w' = patch w -> waves w' = waves w ->
  Water.internalTime w' = Water.internalTime w ->
  Water.vertex w' i j = Water.vertex w i j.
Proof.
  unfold patch, waves. intros [= EX EZ EW EL EDX EDZ].
  intros [= EI Ed Er EA Ew ED ES] Et.
  unfold Water.vertex, Water.H, Water.N, Water.ddxH, Water.ddyH.
  rewrite EX, EZ, EW, EL, EDX, EDZ, EI, Et.
  destruct (Water.internalTime w) as [t0|]; [|reflexivity].
  rewrite (@sum_waves_ext (fun k => Water.W w' k _ _ t0)
                          (fun k => Water.W w k _ _ t0))
    by (intros k; unfold Water.W; now rewrite EA, Ew, ED, ES, Ed, Er).
  rewrite (@sum_waves_ext (fun k => Water.ddxW w' k _ _ t0)
                          (fun k => Water.ddxW w k _ _ t0))
    by (intros k; unfold Water.ddxW; now rewrite EA, Ew, ED, ES, Ed, Er).
  rewrite (@sum_waves_ext (fun k => Water.ddyW w' k _ _ t0)
                          (fun k => Water.ddyW w k _ _ t0))
    by (intros k; unfold Water.ddyW; now rewrite EA, Ew, ED, ES, Ed, Er).
  reflexivity.
Qed.

Lemma push_vertices_ext (w w' : Water.t) (vs : list float) :
  patch w' = patch w -> waves w' = waves w ->
  Water.internalTime w' = Water.internalTime w ->
  Water.push_vertices w' vs = Water.push_vertices w vs.
Proof.
  intros Ep Ew Et. unfold Water.push_vertices, grid.
  assert (EX : Water.pDimX w' = Water.pDimX w)
    by (unfold patch in Ep; congruence).
  assert (EZ : Water.pDimZ w' = Water.pDimZ w)
    by (unfold patch in Ep; congruence).
  rewrite EX, EZ. apply forM_ext. intros i s. apply forM_ext. intros j s1.
  now rewrite (@vertex_ext w w' i j Ep Ew Et).
Qed.

Lemma updateMesh_returns (w : Water.t) :
  ready w -> exists w', Water.updateMesh w = Ok w'.
Proof.
  intros Hr. unfold Water.updateMesh.
  match goal with |- context [Water.push_vertices ?w1 ?vs] =>
    destruct (@push_vertices_returns w1 vs) as [vs' E] end.
  - apply ready_frame with (w := w); [reflexivity| |assumption].
    now destruct Hr as (_ & Ht & _).
  - rewrite E. simpl. eauto.
Qed.

Lemma updateTime_returns (dT : float) (w : Water.t) :
  ready w -> exists w', Water.updateTime dT w = Ok w'.
Proof.
  intros (_ & Ht & _). unfold Water.updateTime.
  destruct (Water.internalTime w); [eauto|contradiction].
Qed.

(** Every state that follows a ready one is ready. *)
Lemma later_ready (w0 w : Water.t) : ready w0 -> later w0 w -> ready w.
Proof.
  intros Hr Hl. induction Hl as [|dT w w' _ IH E|w w' _ IH E].
  - assumption.
  - apply updateTime_frame in E. destruct E as (_ & Ew & _ & _ & _ & _ & Ht).
    now apply ready_frame with (w := w).
  - apply updateMesh_frame in E. destruct E as (_ & Ew & Et & _).
    apply ready_frame with (w := w); try assumption.
    rewrite Et. now destruct IH as (_ & Ht & _).
Qed.

End Returns.

(** ** The constructor *)

Section Constructor.
Context {A : Arith} {L : Libc A}.

Lemma ctor_body_spec (mA : float) (i : Z) (w : Water.t) (g : rng) :
  let s := Water.ctor_body mA i (w, g) in
  rest (fst s) = rest w /\
  length (Water.Ai (fst s)) = S (length (Water.Ai w)) /\
  length (Water.wi (fst s)) = S (length (Water.wi w)) /\
  length (Water.Di (fst s)) = S (length (Water.Di w)) /\
  length (Water.Si (fst s)) = S (length (Water.Si w)).
Proof.
  unfold Water.ctor_body.
  destruct (Water.randFloat mA g) as [a g1].
  destruct (Water.randFloat Water.MAXFREQ g1) as [u g2].
  destruct (Water.randFloat (f_of_int 1) g2) as [dx g3].
  destruct (Water.randFloat (f_of_int 1) g3) as [dy g4].
  destruct (Water.randFloat Water.MAXSPED g4) as [v g5].
  simpl. rewrite !length_app. simpl. repeat split; lia.
Qed.

Lemma ctor_loop_spec (mA : float) (mI : Z) (w0 : Water.t) (g : rng) :
  let s := for_ (range mI) (Water.ctor_body mA) (w0, g) in
  rest (fst s) = rest w0 /\
  length (Water.Ai (fst s)) = (length (Water.Ai w0) + Z.to_nat mI)%nat /\
  length (Water.wi (fst s)) = (length (Water.wi w0) + Z.to_nat mI)%nat /\
  length (Water.Di (fst s)) = (length (Water.Di w0) + Z.to_nat mI)%nat /\
  length (Water.Si (fst s)) = (length (Water.Si w0) + Z.to_nat mI)%nat.
Proof.
  cbv zeta.
  replace (Z.to_nat mI) with (Z.to_nat (Z.max 0 mI)) by lia.
  apply (for_range_inv (fun k s =>
    rest (fst s) = rest w0 /\
    length (Water.Ai (fst s)) = (length (Water.Ai w0) + Z.to_nat k)%nat /\
    length (Water.wi (fst s)) = (length (Water.wi w0) + Z.to_nat k)%nat /\
    length (Water.Di (fst s)) = (length (Water.Di w0) + Z.to_nat k)%nat /\
    length (Water.Si (fst s)) = (length (Water.Si w0) + Z.to_nat k)%nat)).
  - simpl. repeat split; lia.
  - intros i [w g1] Hi (Hrest & HA & Hw & HD & HS).
    destruct (@ctor_body_spec mA i w g1) as (Hrest' & HA' & Hw' & HD' & HS').
    simpl in *. repeat split; try congruence; lia.
Qed.

(** The constructor returns in the directional, rounded mode, and what it
    returns then. *)
Lemma new_spec (px pz pw pl pdimx pdimz : Z) (mA : float) (mI : Z)
      (anim : bool) (g : rng) :
  exists w g',
    Water.new px pz pw pl pdimx pdimz mA mI true true anim g = Ok (w, g') /\
    ready w /\
    patch w = (px, pz, pw, pl, pdimx, pdimz) /\
    Water.maxI w = mI /\
    Water.internalTime w = Some (f_of_int 0) /\
    Water.push_vertices w [] = Ok (Water.vertices w) /\
    Water.indices w = Water.push_indices w [] /\
    Water.vbo_data w = Some (Water.vertices w) /\
    Water.ebo_data w = Some (Water.indices w).
Proof.
  unfold Water.new. simpl.
  match goal with |- context [for_ (range mI) _ (?w0, g)] =>
    pose proof (@ctor_loop_spec mA mI w0 g) as Hloop;
    destruct (for_ (range mI) (Water.ctor_body mA) (w0, g)) as [w1 g1] end.
  simpl in Hloop. destruct Hloop as (Hrest & HA & Hw & HD & HS).
  unfold rest, patch in Hrest. simpl in Hrest.
  injection Hrest as Ev Ei Et Evb Eeb EX EZ EW EL EDX EDZ EmA EmI Ed Er Ea.
  set (w2 := Water.set_internalTime (Some (f_of_int 0)) w1).
  assert (Hr2 : ready w2).
  { unfold ready. simpl. rewrite Ed, Er, EmI, HA, Hw, HD, HS.
    repeat split; discriminate. }
  destruct (setupMesh_returns Hr2) as [w3 E3].
  rewrite E3. simpl. exists w3, g1. split; [reflexivity|].
  apply setupMesh_frame in E3.
  destruct E3 as (Ep & Ewv & Et3 & Hvs & Hixs & Hvbo & Hebo).
  split.
  { apply ready_frame with (w := w2); try assumption.
    rewrite Et3. discriminate. }
  repeat split.
  - rewrite Ep. unfold patch. simpl. congruence.
  - unfold waves in Ewv. simpl in Ewv. congruence.
  - rewrite Et3. reflexivity.
  - rewrite (push_vertices_ext [] Ep Ewv Et3).
    simpl in Hvs. now rewrite Ev in Hvs.
  - rewrite Hixs. simpl. rewrite Ei. unfold Water.push_indices.
    unfold patch in Ep. simpl in Ep. injection Ep as _ _ _ _ E1 E2.
    simpl. now rewrite E1, E2.
  - assumption.
  - assumption.
Qed.

End Constructor.

(** ** The index buffer and the draw calls *)

Lemma for_append {E : Type} (f : Z -> list E) (body : Z -> list E -> list E)
      (l : list Z) (s : list E) :
  (forall i s, body i s = s ++ f i) ->
  for_ l body s = s ++ flat_map f l.
Proof.
  intros Hbody. unfold for_. revert s.
  induction l as [|i l IH]; intros s; simpl.
  - now rewrite app_nil_r.
  - rewrite IH, Hbody, <- app_assoc. reflexivity.
Qed.

Section Indices.
Context {A : Arith} {L : Libc A}.

(** The index sequence, row by row. *)
Lemma push_indices_rows (w : Water.t) (ixs : list Z) :
  Water.push_indices w ixs =
  ixs ++ flat_map (fun i => flat_map (strip_pair (Water.pDimX w) i)
                                     (range (Water.pDimX w)))
                  (range (Water.pDimZ w - 1)).
Proof.
  unfold Water.push_indices. apply for_append. intros i s.
  apply for_append. intros j s1. unfold strip_pair.
  change (range 2) with [0; 1]. unfold for_. simpl.
  now rewrite Z.add_0_r, <- app_assoc.
Qed.

Lemma strip_pair_bound (Nx Nz i j k : Z) :
  0 <= i < Nz - 1 -> 0 <= j < Nx -> In k (strip_pair Nx i j) ->
  0 <= k < Nx * Nz.
Proof.
  intros Hi Hj Hk. unfold strip_pair, to_uint in Hk. simpl in Hk.
  assert (Hmod : forall v, 0 <= v -> 0 <= v mod 2 ^ 32 <= v).
  { intros v Hv. split; [apply Z.mod_pos_bound; lia|].
    apply Z.mod_le; lia. }
  assert (0 <= Nx * i) by nia.
  assert (Nx * i + Nx <= Nx * (Nz - 1)) by nia.
  destruct Hk as [<-|[<-|[]]].
  - specialize (Hmod (j + Nx * i)). lia.
  - specialize (Hmod (j + Nx * (i + 1))). lia.
Qed.

Lemma push_indices_bound (w : Water.t) :
  Forall (fun k => 0 <= k < Water.pDimX w * Water.pDimZ w)
         (Water.push_indices w []).
Proof.
  rewrite push_indices_rows. simpl. apply Forall_forall. intros k Hk.
  apply in_flat_map in Hk. destruct Hk as (i & Hi & Hk).
  apply in_flat_map in Hk. destruct Hk as (j & Hj & Hk).
  apply range_In in Hi, Hj. now apply strip_pair_bound with (i := i) (j := j).
Qed.

(** The calls [draw] issues, one per row. *)
Lemma draw_calls (w : Water.t) :
  Water.draw w =
  map (fun i => {| de_mode := GL_TRIANGLE_STRIP;
                   de_count := Water.pDimX w;
                   de_offset := to_size_t (sizeof_uint * Water.pDimX w * i) |})
      (range (Water.pDimZ w - 1)).
Proof. unfold Water.draw. now rewrite for_push. Qed.

(** [draw] issues [pDimZ - 1] calls, and call [i] reads the [pDimX]
    indices at the positions [pDimX * i, pDimX * (i + 1)). *)
Lemma draw_spans (w : Water.t) (i : Z) :
  0 <= Water.pDimX w -> 0 <= i < Water.pDimZ w - 1 ->
  sizeof_uint * Water.pDimX w * i < 2 ^ 64 ->
  length (Water.draw w) = Z.to_nat (Water.pDimZ w - 1) /\
  exists c, nth_error (Water.draw w) (Z.to_nat i) = Some c /\
            de_count c = Water.pDimX w /\
            index_span c = (Water.pDimX w * i, Water.pDimX w * (i + 1)).
Proof.
  intros HNx Hi Hsz. rewrite draw_calls, length_map, range_length.
  split; [reflexivity|]. rewrite nth_error_map, range_nth by lia.
  rewrite Z2Nat.id by lia. cbn [option_map]. eexists. split; [reflexivity|].
  split; [reflexivity|]. unfold index_span, to_size_t, sizeof_uint in *.
  cbn [de_offset de_count].
  assert (0 <= Water.pDimX w * i) by nia.
  rewrite Z.mod_small by lia.
  replace (4 * Water.pDimX w * i) with (Water.pDimX w * i * 4) by lia.
  rewrite Z.div_mul by lia. f_equal. lia.
Qed.

End Indices.

(** ** The vertex buffer *)

Section Vertices.
Context {A : Arith} {L : Libc A}.

Lemma vertex_inv (w : Water.t) (i j : Z) (v : list float) :
  Water.vertex w i j = Ok v ->
  exists t0 y n,
    Water.internalTime w = Some t0 /\
    Water.H w (Water.sample (Water.pX w) (Water.pW w) (Water.pDimX w) i)
              (Water.sample (Water.pZ w) (Water.pL w) (Water.pDimZ w) j) t0
    = Ok y /\
    Water.N w (Water.sample (Water.pX w) (Water.pW w) (Water.pDimX w) i)
              (Water.sample (Water.pZ w) (Water.pL w) (Water.pDimZ w) j) t0
    = Ok n /\
    v = [Water.sample (Water.pX w) (Water.pW w) (Water.pDimX w) i; y;
         Water.sample (Water.pZ w) (Water.pL w) (Water.pDimZ w) j;
         v3x n; v3y n; v3z n].
Proof.
  unfold Water.vertex. destruct (Water.internalTime w) as [t0|]; [|discriminate].
  destruct (Water.H w _ _ t0) as [y| |] eqn:Ey; simpl; try discriminate.
  destruct (Water.N w _ _ t0) as [n| |] eqn:En; simpl; try discriminate.
  intros [= <-]. exists t0, y, n. repeat split; assumption.
Qed.

Lemma pushed_step (w : Water.t) (i j : Z) (vs v : list float) :
  0 <= i < Water.pDimX w -> 0 <= j < Water.pDimZ w ->
  pushed w (i * Water.pDimZ w + j) vs ->
  Water.vertex w i j = Ok v ->
  pushed w (i * Water.pDimZ w + j + 1) (vs ++ v).
Proof.
  intros Hi Hj (Hlen & Hold) Ev.
  assert (Hv : length v = 6%nat).
  { apply vertex_inv in Ev. destruct Ev as (? & ? & ? & _ & _ & _ & ->).
    reflexivity. }
  assert (Hrank : 0 <= i * Water.pDimZ w + j) by nia.
  split.
  - rewrite length_app, Hlen, Hv. lia.
  - intros i' j' Hi' Hj' Hlt.
    assert (Hrank' : 0 <= i' * Water.pDimZ w + j') by nia.
    destruct (Z.eq_dec (i' * Water.pDimZ w + j') (i * Water.pDimZ w + j))
      as [E|NE].
    + destruct (@rank_inj (Water.pDimZ w) i' j' i j Hj' Hj E) as [-> ->].
      exists v. split; [assumption|]. intros p Hp.
      rewrite nth_error_app2 by lia. f_equal. lia.
    + destruct (Hold i' j' Hi' Hj') as (v' & Ev' & Hnth); [lia|].
      exists v'. split; [assumption|]. intros p Hp.
      rewrite nth_error_app1 by lia. now apply Hnth.
Qed.

(** Where the loop "setup vertices" leaves each sample of the grid. *)
Lemma push_vertices_layout (w : Water.t) (vs : list float) :
  Water.push_vertices w [] = Ok vs ->
  0 <= Water.pDimX w -> 0 <= Water.pDimZ w ->
  pushed w (Water.pDimX w * Water.pDimZ w) vs.
Proof.
  intros Hrun HNx HNz. unfold Water.push_vertices in Hrun.
  apply (grid_inv (pushed w)) in Hrun; try assumption.
  - split; [reflexivity|]. intros i j Hi Hj Hlt. nia.
  - intros i j s s1 Hi Hj Hs Hb.
    destruct (Water.vertex w i j) as [v| |] eqn:Ev; simpl in Hb;
      try discriminate.
    injection Hb as <-. now apply pushed_step.
Qed.

End Vertices.

(** ** The mesh *)

Section Mesh.
Context {A : Arith} {L : Libc A}.

Lemma updateMesh_vertices (w w' : Water.t) :
  Water.updateMesh w = Ok w' ->
  Water.push_vertices w' [] = Ok (Water.vertices w').
Proof.
  unfold Water.updateMesh.
  destruct (Water.push_vertices _ _) as [vs| |] eqn:E; simpl; try discriminate.
  intros [= <-]. simpl in *. rewrite <- E. now apply push_vertices_ext.
Qed.

Lemma meshed_vertices (w : Water.t) :
  meshed w -> Water.push_vertices w [] = Ok (Water.vertices w).
Proof.
  intros [(px & pz & pw & pl & pdimx & pdimz & mA & mI & anim & g & g' & E)
         |(w1 & E)].
  - destruct (new_spec px pz pw pl pdimx pdimz mA mI anim g)
      as (w0 & g0 & E0 & _ & _ & _ & _ & Hvs & _).
    rewrite E in E0. now injection E0 as <- <-.
  - now apply updateMesh_vertices in E.
Qed.

(** The element buffer is the same in every later state. *)
Lemma later_ebo_data (w0 w : Water.t) :
  later w0 w -> Water.ebo_data w = Water.ebo_data w0.
Proof.
  intros Hl. induction Hl as [|dT w w' _ IH E|w w' _ IH E].
  - reflexivity.
  - apply updateTime_frame in E. destruct E as (_ & _ & _ & _ & _ & -> & _).
    exact IH.
  - apply updateMesh_frame in E. destruct E as (_ & _ & _ & _ & ->).
    exact IH.
Qed.

End Mesh.

(** * The claims of the specification *)

(** A run of the code on a concrete input: the result is computed, given as
    the value that exists, and checked against the call. *)
Ltac run :=
  lazymatch goal with
  | |- exists w g, ?call = Ok (w, g) /\ _ =>
      let r := eval vm_compute in call in
      lazymatch r with
      | Ok (?w0, ?g0) => exists w0, g0; split; [reflexivity|]
      end
  | |- exists w, ?call = Ok w /\ _ =>
      let r := eval vm_compute in call in
      lazymatch r with
      | Ok ?w0 => exists w0; split; [reflexivity|]
      end
  end.


(** ** Draw calls and indices *)

(** C1.  The specification has [draw] issue Nz - 1 triangle-strip draws, the
    i-th reading the 2*Nx indices at [Nx*2*i, Nx*2*(i+1)).  On the 2 x 3 grid
    the code builds the index buffer with two strips of four indices and does
    issue 3 - 1 = 2 draws, but each reads two indices only, and the second
    starts at position 2: the draws read the spans [0, 2) and [2, 4), where
    the specification gives [0, 4) and [4, 8).  ([draw_spans] above is the
    general statement.) *)
Theorem draw_reads_half_strips :
  exists w g,
    Water.new (A := IEEE) 0 0 50 50 2 3 (flit 1 10) 0 true true false 1
    = Ok (w, g) /\
    Water.ebo_data w = Some [0; 2; 1; 3; 2; 4; 3; 5] /\
    length (Water.draw w) = 2%nat /\
    map de_count (Water.draw w) = [2; 2] /\
    map index_span (Water.draw w) = [(0, 2); (2, 4)] /\
    map (strip_span 2) (range (3 - 1)) = [(0, 4); (4, 8)].
Proof.
  run. repeat split; vm_compute; reflexivity.
Qed.

(** C10.  For every grid with Nx >= 1 and Nz >= 1 the constructor returns,
    the index buffer holds, row after row and column after column, the pairs
    j + Nx*i, j + Nx*(i+1), each of them is below Nx*Nz, and Nx*Nz is the
    number of vertices (of six floats each) in the vertex buffer. *)
Theorem indices_below_vertex_count {A : Arith} {L : Libc A}
        (px pz pw pl pdimx pdimz : Z) (mA : float) (mI : Z) (anim : bool)
        (g : rng) :
  1 <= pdimx -> 1 <= pdimz ->
  exists w g',
    Water.new px pz pw pl pdimx pdimz mA mI true true anim g = Ok (w, g') /\
    Water.indices w =
      flat_map (fun i => flat_map (strip_pair pdimx i) (range pdimx))
               (range (pdimz - 1)) /\
    Water.ebo_data w = Some (Water.indices w) /\
    Forall (fun k => 0 <= k < pdimx * pdimz) (Water.indices w) /\
    Water.vbo_data w = Some (Water.vertices w) /\
    length (Water.vertices w) = Z.to_nat (6 * (pdimx * pdimz)).
Proof.
  intros HNx HNz.
  destruct (new_spec px pz pw pl pdimx pdimz mA mI anim g)
    as (w & g' & E & _ & Hp & _ & _ & Hvs & Hixs & Hvbo & Hebo).
  unfold patch in Hp. injection Hp as _ _ _ _ EX EZ.
  exists w, g'. repeat split; try assumption.
  - now rewrite Hixs, push_indices_rows, EX, EZ.
  - rewrite Hixs, <- EX, <- EZ. apply push_indices_bound.
  - apply push_vertices_layout in Hvs; [|lia|lia].
    destruct Hvs as [Hlen _]. now rewrite Hlen, EX, EZ.
Qed.

Lemma indices_below_vertex_count_witness :
  1 <= 2 /\ 1 <= 3 /\
  exists w g',
    Water.new (A := IEEE) 0 0 50 50 2 3 (flit 1 10) 0 true true false 1
    = Ok (w, g') /\
    Water.indices w =
      flat_map (fun i => flat_map (strip_pair 2 i) (range 2)) (range (3 - 1)) /\
    Water.ebo_data w = Some (Water.indices w) /\
    Forall (fun k => 0 <= k < 2 * 3) (Water.indices w) /\
    Water.vbo_data w = Some (Water.vertices w) /\
    length (Water.vertices w) = Z.to_nat (6 * (2 * 3)).
Proof.
  split; [lia|]. split; [lia|].
  apply (@indices_below_vertex_count IEEE libc 0 0 50 50 2 3 (flit 1 10) 0
           false 1); lia.
Defined.

(** ** Construction in an unsupported mode *)

(** C3, as the code has it.  For every construction request whose mode is
    not (directional, rounded) the constructor signals nothing: it returns,
    with no wave, no vertex, no index, no buffer and an uninitialised clock,
    and it draws no random number. *)
Theorem unsupported_mode_returns {A : Arith} {L : Libc A}
        (px pz pw pl pdimx pdimz : Z) (mA : float) (mI : Z)
        (dir rnd anim : bool) (g : rng) :
  dir && rnd = false ->
  Water.new px pz pw pl pdimx pdimz mA mI dir rnd anim g =
  Ok ({| Water.vertices := []; Water.indices := [];
         Water.internalTime := None;
         Water.vbo_data := None; Water.ebo_data := None;
         Water.pX := px; Water.pZ := pz; Water.pW := pw; Water.pL := pl;
         Water.pDimX := pdimx; Water.pDimZ := pdimz;
         Water.maxA := mA; Water.maxI := mI;
         Water.directional := dir; Water.rounded := rnd;
         Water.animated := anim;
         Water.Ai := []; Water.wi := []; Water.Di := []; Water.Si := [] |},
      g).
Proof. intros Hmode. unfold Water.new. now rewrite Hmode. Qed.

Lemma unsupported_mode_returns_witness :
  false && true = false /\
  Water.new (A := IEEE) 0 0 50 50 500 500 (flit 1 10) 20 false true false 1 =
  Ok ({| Water.vertices := []; Water.indices := [];
         Water.internalTime := None;
         Water.vbo_data := None; Water.ebo_data := None;
         Water.pX := 0; Water.pZ := 0; Water.pW := 50; Water.pL := 50;
         Water.pDimX := 500; Water.pDimZ := 500;
         Water.maxA := flit 1 10; Water.maxI := 20;
         Water.directional := false; Water.rounded := true;
         Water.animated := false;
         Water.Ai := []; Water.wi := []; Water.Di := []; Water.Si := [] |},
      1).
Proof.
  split; [reflexivity|].
  apply (@unsupported_mode_returns IEEE libc 0 0 50 50 500 500 (flit 1 10) 20
           false true false 1).
  reflexivity.
Defined.

(** C3, as the specification states it, fails: the request of [Kernel::start]
    with the mode changed to (circular, rounded) is answered by an object,
    not by an exception. *)
Lemma unsupported_mode_not_rejected :
  (exists w, Water.new (A := IEEE) 0 0 50 50 500 500 (flit 1 10) 20
                       false true false 1 = Ok (w, 1) /\
             Water.Ai w = [] /\ Water.vertices w = [] /\
             Water.ebo_data w = None) /\
  (forall e, Water.new (A := IEEE) 0 0 50 50 500 500 (flit 1 10) 20
                       false true false 1 <> Throw e).
Proof.
  split.
  - eexists. split; [reflexivity|]. repeat split.
  - intros e. discriminate.
Qed.

(** ** The clock *)

(** C9, as the code has it.  In every state after construction and for every
    dt, negative or not, [updateTime] returns and sets the clock to t + dt;
    nothing else changes and no error is signalled. *)
Theorem updateTime_adds {A : Arith} {L : Libc A}
        (px pz pw pl pdimx pdimz : Z) (mA : float) (mI : Z) (anim : bool)
        (g g' : rng) (w0 w : Water.t) (dT : float) :
  Water.new px pz pw pl pdimx pdimz mA mI true true anim g = Ok (w0, g') ->
  later w0 w ->
  exists t0 w',
    Water.internalTime w = Some t0 /\
    Water.updateTime dT w = Ok w' /\
    Water.internalTime w' = Some (fadd t0 dT) /\
    patch w' = patch w /\ waves w' = waves w /\
    Water.vertices w' = Water.vertices w /\
    Water.indices w' = Water.indices w /\
    Water.vbo_data w' = Water.vbo_data w /\
    Water.ebo_data w' = Water.ebo_data w.
Proof.
  intros Enew Hl.
  destruct (new_spec px pz pw pl pdimx pdimz mA mI anim g)
    as (w1 & g1 & E1 & Hr & _).
  rewrite Enew in E1. injection E1 as <- <-.
  destruct (later_ready Hr Hl) as (_ & Ht & _).
  unfold Water.updateTime.
  destruct (Water.internalTime w) as [t0|]; [|contradiction].
  exists t0. eexists. split; [reflexivity|]. split; [reflexivity|].
  simpl. repeat split.
Qed.

Lemma updateTime_adds_witness :
  exists w0 g',
    Water.new (A := IEEE) 0 0 50 50 2 2 (flit 1 10) 0 true true false 1
    = Ok (w0, g') /\
    later w0 w0 /\
    exists t0 w',
      Water.internalTime w0 = Some t0 /\
      Water.updateTime (flit 1 60) w0 = Ok w' /\
      Water.internalTime w' = Some (fadd t0 (flit 1 60)) /\
      patch w' = patch w0 /\ waves w' = waves w0 /\
      Water.vertices w' = Water.vertices w0 /\
      Water.indices w' = Water.indices w0 /\
      Water.vbo_data w' = Water.vbo_data w0 /\
      Water.ebo_data w' = Water.ebo_data w0.
Proof.
  run. split; [apply later_new|].
  eapply (@updateTime_adds IEEE libc 0 0 50 50 2 2 (flit 1 10) 0 false 1).
  - reflexivity.
  - apply later_new.
Defined.

(** C9, as the specification states it, fails for dt < 0: from the clock at
    0, [updateTime(-1)] returns, and the clock is left at -1. *)
Lemma negative_step_moves_clock :
  exists w g,
    Water.new (A := IEEE) 0 0 50 50 2 2 (flit 1 10) 0 true true false 1
    = Ok (w, g) /\
    Water.internalTime w = Some (f_of_int 0) /\
    @flt IEEE (f_of_int (-1)) (f_of_int 0) = true /\
    exists w',
      Water.updateTime (f_of_int (-1)) w = Ok w' /\
      Water.internalTime w' = Some (f_of_int (-1)) /\
      Water.internalTime w' <> Water.internalTime w.
Proof.
  run. split; [reflexivity|]. split; [reflexivity|].
  run. split; [reflexivity|]. vm_compute. discriminate.
Qed.

(** ** The index buffer under [updateMesh] *)

(** C6, as the code has it.  In every state after construction [updateMesh]
    returns and leaves the element buffer of the GPU as the constructor
    filled it, with the index sequence built at construction; the member
    [indices] itself is emptied. *)
Theorem updateMesh_keeps_element_buffer {A : Arith} {L : Libc A}
        (px pz pw pl pdimx pdimz : Z) (mA : float) (mI : Z) (anim : bool)
        (g g' : rng) (w0 w : Water.t) :
  Water.new px pz pw pl pdimx pdimz mA mI true true anim g = Ok (w0, g') ->
  later w0 w ->
  exists w',
    Water.updateMesh w = Ok w' /\
    Water.ebo_data w = Some (Water.indices w0) /\
    Water.ebo_data w' = Some (Water.indices w0) /\
    Water.indices w' = [].
Proof.
  intros Enew Hl.
  destruct (new_spec px pz pw pl pdimx pdimz mA mI anim g)
    as (w1 & g1 & E1 & Hr & _ & _ & _ & _ & _ & _ & Hebo).
  rewrite Enew in E1. injection E1 as <- <-.
  destruct (updateMesh_returns (later_ready Hr Hl)) as [w' E].
  exists w'. split; [assumption|].
  pose proof (later_ebo_data Hl) as Hsame.
  apply updateMesh_frame in E. destruct E as (_ & _ & _ & Hix & Heq).
  repeat split; congruence.
Qed.

Lemma updateMesh_keeps_element_buffer_witness :
  exists w0 g',
    Water.new (A := IEEE) 0 0 50 50 2 2 (flit 1 10) 0 true true false 1
    = Ok (w0, g') /\
    later w0 w0 /\
    exists w',
      Water.updateMesh w0 = Ok w' /\
      Water.ebo_data w0 = Some (Water.indices w0) /\
      Water.ebo_data w' = Some (Water.indices w0) /\
      Water.indices w' = [].
Proof.
  run. split; [apply later_new|].
  eapply (@updateMesh_keeps_element_buffer IEEE libc 0 0 50 50 2 2 (flit 1 10)
            0 false 1).
  - reflexivity.
  - apply later_new.
Defined.

(** C6, as the specification states it, fails for the stored index sequence
    that is the member [indices]: on the 2 x 2 grid it is [0; 2; 1; 3] after
    construction and empty after [updateMesh]. *)
Lemma updateMesh_clears_indices :
  exists w g,
    Water.new (A := IEEE) 0 0 50 50 2 2 (flit 1 10) 0 true true false 1
    = Ok (w, g) /\
    Water.indices w = [0; 2; 1; 3] /\
    exists w',
      Water.updateMesh w = Ok w' /\
      Water.indices w' = [] /\
      Water.ebo_data w' = Some [0; 2; 1; 3].
Proof.
  run. split; [reflexivity|]. run. split; reflexivity.
Qed.

(** ** Grid sampling *)

(** In exact arithmetic the coordinate of a sample is
    [c - e quot 2 + i*e/n]; it is the [c - e/2 + i*e/n] of the
    specification when the extent [e] is even. *)
Lemma sample_exact (c e n i : Z) :
  (Water.sample (A := Exact) c e n i ==
   inject_Z (c - Z.quot e 2) + inject_Z i * inject_Z e / inject_Z n)%Q.
Proof. reflexivity. Qed.

Lemma sample_exact_even (c e n i : Z) :
  Z.rem e 2 = 0 ->
  (Water.sample (A := Exact) c e n i == spec_sample c e n i)%Q.
Proof.
  intros Heven. unfold spec_sample. rewrite sample_exact.
  pose proof (Z.quot_rem' e 2) as Hq. rewrite Heven, Z.add_0_r in Hq.
  assert (Hhalf : (inject_Z e / 2 == inject_Z (Z.quot e 2))%Q).
  { rewrite Hq at 1. rewrite inject_Z_mult. field. }
  unfold Zminus. rewrite inject_Z_plus, inject_Z_opp, Hhalf. ring.
Qed.

(** Grid sampling, as the code has it.  After the constructor (in the
    implemented mode) and after every [updateMesh], on a patch whose corner
    (pX - pW quot 2, pZ - pL quot 2) fits an [int], for every sample (i, j)
    of the grid the
    six floats at 6*(i*Nz + j) of [vertices] are x, y, z and the normal,
    where x is cx - W quot 2 + i*W/Nx: the quotient of W by 2 is the integer
    one, truncated, and the sum, the product and the quotient by Nx are
    formed in [float]; z is cz - L quot 2 + j*L/Nz in the same way and
    y = H(x, z, t) at the time t of the clock. *)
Theorem vertex_of_sample {A : Arith} {L : Libc A} (w : Water.t) (i j : Z) :
  meshed w ->
  INT_MIN <= Water.pX w - Z.quot (Water.pW w) 2 <= INT_MAX ->
  INT_MIN <= Water.pZ w - Z.quot (Water.pL w) 2 <= INT_MAX ->
  0 <= i < Water.pDimX w -> 0 <= j < Water.pDimZ w ->
  exists x z t0 y n,
    x = fadd (f_of_int (Water.pX w - Z.quot (Water.pW w) 2))
             (fdiv (fmul (f_of_int i) (f_of_int (Water.pW w)))
                   (f_of_int (Water.pDimX w))) /\
    z = fadd (f_of_int (Water.pZ w - Z.quot (Water.pL w) 2))
             (fdiv (fmul (f_of_int j) (f_of_int (Water.pL w)))
                   (f_of_int (Water.pDimZ w))) /\
    Water.internalTime w = Some t0 /\
    Water.H w x z t0 = Ok y /\
    Water.N w x z t0 = Ok n /\
    firstn 6 (skipn (Z.to_nat (6 * (i * Water.pDimZ w + j))) (Water.vertices w))
    = [x; y; z; v3x n; v3y n; v3z n].
Proof.
  intros Hm _ _ Hi Hj. apply meshed_vertices in Hm.
  apply push_vertices_layout in Hm; [|lia|lia].
  destruct Hm as (Hlen & Hall).
  destruct (Hall i j Hi Hj) as (v & Ev & Hnth); [nia|].
  apply vertex_inv in Ev. destruct Ev as (t0 & y & n & Et & Ey & En & ->).
  eexists _, _, t0, y, n. split; [reflexivity|]. split; [reflexivity|].
  split; [assumption|]. split; [exact Ey|]. split; [exact En|].
  set (k := Z.to_nat (6 * (i * Water.pDimZ w + j))) in *.
  assert (Hk : (k + 6 <= length (Water.vertices w))%nat).
  { rewrite Hlen. unfold k. nia. }
  apply nth_error_ext. intros p.
  destruct (Nat.lt_ge_cases p 6) as [Hp|Hp].
  - rewrite nth_error_firstn, <- Hnth by assumption.
    destruct (Nat.ltb_spec p 6) as [_|]; [|lia].
    now rewrite nth_error_skipn.
  - rewrite nth_error_firstn.
    destruct (Nat.ltb_spec p 6) as [|_]; [lia|].
    symmetry. apply nth_error_None. simpl. lia.
Qed.

Lemma vertex_of_sample_witness :
  exists w g,
    Water.new (A := IEEE) 0 0 50 50 2 3 (flit 1 10) 0 true true false 1
    = Ok (w, g) /\
    meshed w /\
    INT_MIN <= Water.pX w - Z.quot (Water.pW w) 2 <= INT_MAX /\
    INT_MIN <= Water.pZ w - Z.quot (Water.pL w) 2 <= INT_MAX /\
    0 <= 1 < Water.pDimX w /\ 0 <= 2 < Water.pDimZ w /\
    exists x z t0 y n,
      x = fadd (f_of_int (Water.pX w - Z.quot (Water.pW w) 2))
               (fdiv (fmul (f_of_int 1) (f_of_int (Water.pW w)))
                     (f_of_int (Water.pDimX w))) /\
      z = fadd (f_of_int (Water.pZ w - Z.quot (Water.pL w) 2))
               (fdiv (fmul (f_of_int 2) (f_of_int (Water.pL w)))
                     (f_of_int (Water.pDimZ w))) /\
      Water.internalTime w = Some t0 /\
      Water.H w x z t0 = Ok y /\
      Water.N w x z t0 = Ok n /\
      firstn 6 (skipn (Z.to_nat (6 * (1 * Water.pDimZ w + 2)))
                      (Water.vertices w))
      = [x; y; z; v3x n; v3y n; v3z n].
Proof.
  run.
  assert (Hm : forall w g,
    Water.new (A := IEEE) 0 0 50 50 2 3 (flit 1 10) 0 true true false 1
    = Ok (w, g) -> meshed w).
  { intros w g E. left. now exists 0, 0, 50, 50, 2, 3, (flit 1 10), 0, false, 1, g. }
  split; [eapply Hm; reflexivity|].
  split; [vm_compute; split; discriminate|].
  split; [vm_compute; split; discriminate|].
  split; [simpl; lia|]. split; [simpl; lia|].
  apply (@vertex_of_sample IEEE libc).
  - eapply Hm; reflexivity.
  - vm_compute; split; discriminate.
  - vm_compute; split; discriminate.
  - simpl; lia.
  - simpl; lia.
Defined.

(** C5.  The specification has the vertex of the sample (i, j) at
    x = cx - W/2 + i*W/Nx, and the constructor documents cx as the centre of
    the patch and W as its width.  The code forms W/2 in [int]: with cx = 0,
    W = 5 and Nx = 1 the sample i = 0 is written with x = -2, where
    cx - W/2 + i*W/Nx is -5/2.  ([vertex_of_sample] above is the general
    statement, [sample_exact_even] the agreement for an even W.) *)
Theorem odd_width_sample :
  exists w g,
    Water.new (A := IEEE) 0 0 5 5 1 1 (flit 1 10) 0 true true false 1
    = Ok (w, g) /\
    exists x q,
      nth_error (Water.vertices w) 0 = Some x /\
      SF2Q x = Some q /\
      (q == -2)%Q /\
      (spec_sample 0 5 1 0 == - (5 # 2))%Q /\
      ~ (q == spec_sample 0 5 1 0)%Q.
Proof.
  run. eexists _, _. split; [reflexivity|]. split; [reflexivity|].
  split; [reflexivity|]. split; [reflexivity|].
  intros E. vm_compute in E. discriminate.
Qed.

(** ** The ranges of the wave set, in exact arithmetic *)

Lemma lcg_rand_range (g : Z) : 0 <= fst (lcg_rand g) <= 32767.
Proof.
  unfold lcg_rand. cbn [fst].
  pose proof (Z.mod_pos_bound ((g * 1103515245 + 12345) mod 2 ^ 32 / 65536) 32768).
  lia.
Qed.

Lemma libc_in_range : rand_in_range libc.
Proof. split; [simpl; lia|]. intros g. apply lcg_rand_range. Qed.

Lemma libc_exact_in_range : rand_in_range libc_exact.
Proof. split; [simpl; lia|]. intros g. apply lcg_rand_range. Qed.

(** Linear arithmetic on rationals, the quotients by 2 written as products. *)
Ltac qlra := unfold Qdiv in *; change (/ 2)%Q with (1 # 2)%Q in *; lra.

Section Ranges.
Context (L : Libc Exact) (Hrand : rand_in_range L).
Local Open Scope Q_scope.

Lemma Qdiv_div (r M x : Q) : r / (M / x) == r * x / M.
Proof. unfold Qdiv. rewrite Qinv_mult_distr, Qinv_involutive. ring. Qed.

(** [randFloat x] lies between 0 and [x], for [x] not negative. *)
Lemma randFloat_range (x : Q) (g : rng) :
  0 <= x -> 0 <= fst (Water.randFloat x g) <= x.
Proof.
  intros Hx. unfold Water.randFloat.
  destruct Hrand as [HM Hr]. specialize (Hr g).
  destruct (rand g) as [r g1]. cbn [fst] in *. cbn [fdiv f_of_int Exact].
  assert (H0 : 0 <= inject_Z r) by (change 0 with (inject_Z 0); rewrite <- Zle_Qle; lia).
  assert (H1 : inject_Z r <= inject_Z RAND_MAX) by (rewrite <- Zle_Qle; lia).
  assert (H2 : 0 < inject_Z RAND_MAX)
    by (change 0 with (inject_Z 0); rewrite <- Zlt_Qlt; lia).
  rewrite Qdiv_div. split.
  - apply Qle_shift_div_l; [assumption|]. nra.
  - apply Qle_shift_div_r; [assumption|]. nra.
Qed.

Lemma omega_max_value : omega_max == 1.
Proof. reflexivity. Qed.

Lemma S_max_value : S_max == 1 # 200.
Proof. reflexivity. Qed.

Lemma halved_plus_half_freq_value (u : Q) :
  Water.halved_plus_half_freq (A := Exact) u == u / 2 + omega_max / 2.
Proof.
  unfold Water.halved_plus_half_freq, Water.half, dlit, omega_max.
  cbn [f_of_double dadd dmul d_of_float ddiv d_of_int Exact].
  field.
Qed.

Lemma twice_minus_one_value (u : Q) :
  Water.twice_minus_one (A := Exact) u == u * 2 - 1.
Proof. reflexivity. Qed.

(** One run of the body of the constructor's loop keeps the ranges. *)
Lemma ctor_body_ranges (PA : Q -> Prop) (mA : Q) (i : Z) (w : Water.t)
      (g : rng) :
  (forall g, PA (fst (Water.randFloat mA g))) ->
  wave_ranges PA w ->
  wave_ranges PA (fst (Water.ctor_body mA i (w, g))).
Proof.
  intros HmA (HA & Hw & HD & HS). unfold Water.ctor_body.
  pose proof (HmA g) as Ra.
  destruct (Water.randFloat (A := Exact) mA g) as [a g1].
  pose proof (@randFloat_range (Water.MAXFREQ (A := Exact)) g1) as Ru.
  destruct (Water.randFloat (A := Exact) Water.MAXFREQ g1) as [u g2].
  pose proof (@randFloat_range (f_of_int (Arith := Exact) 1) g2) as Rx.
  destruct (Water.randFloat (A := Exact) (f_of_int 1) g2) as [dx g3].
  pose proof (@randFloat_range (f_of_int (Arith := Exact) 1) g3) as Ry.
  destruct (Water.randFloat (A := Exact) (f_of_int 1) g3) as [dy g4].
  pose proof (@randFloat_range (Water.MAXSPED (A := Exact)) g4) as Rv.
  destruct (Water.randFloat (A := Exact) Water.MAXSPED g4) as [v g5].
  cbn [fst] in *.
  assert (Ru' : 0 <= u <= 1) by (apply Ru; discriminate).
  assert (Rx' : 0 <= dx <= 1) by (apply Rx; discriminate).
  assert (Ry' : 0 <= dy <= 1) by (apply Ry; discriminate).
  assert (Rv' : 0 <= v <= S_max) by (apply Rv; discriminate).
  pose proof omega_max_value as Eo. pose proof S_max_value as Es.
  unfold wave_ranges, Water.push_wave.
  cbn [Water.Ai Water.wi Water.Di Water.Si].
  split; [|split; [|split]]; apply Forall_app; (split; [assumption|]);
    (constructor; [|constructor]).
  - exact Ra.
  - unfold frequency_range. rewrite halved_plus_half_freq_value. qlra.
  - unfold direction_range. cbn [v2x v2y].
    rewrite !twice_minus_one_value. qlra.
  - unfold speed_range. rewrite halved_plus_half_freq_value. qlra.
Qed.

Lemma ctor_loop_ranges (PA : Q -> Prop) (mA : Q) (mI : Z) (w0 : Water.t)
      (g : rng) :
  (forall g, PA (fst (Water.randFloat mA g))) ->
  wave_ranges PA w0 ->
  wave_ranges PA (fst (for_ (range mI) (Water.ctor_body mA) (w0, g))).
Proof.
  intros HmA H0.
  apply (for_range_inv (fun _ s => wave_ranges PA (fst s))).
  - exact H0.
  - intros i [w g1] _ Hw. now apply ctor_body_ranges.
Qed.

(** The waves of a constructed water are in their ranges. *)
Lemma new_ranges (PA : Q -> Prop) (px pz pw pl pdimx pdimz : Z) (mA : Q)
      (mI : Z) (anim : bool) (g g' : rng) (w : Water.t) :
  (forall g, PA (fst (Water.randFloat mA g))) ->
  Water.new px pz pw pl pdimx pdimz mA mI true true anim g = Ok (w, g') ->
  wave_ranges PA w.
Proof.
  intros HmA. unfold Water.new. cbn [andb].
  match goal with |- context [for_ (range mI) _ (?w0, g)] =>
    pose proof (@ctor_loop_ranges PA mA mI w0 g HmA) as Hloop;
    destruct (for_ (range mI) (Water.ctor_body (A := Exact) mA) (w0, g))
      as [w1 g1] end.
  cbn [fst] in Hloop.
  assert (H1 : wave_ranges PA w1)
    by (apply Hloop; repeat split; constructor).
  destruct (Water.setupMesh _) as [w3| |] eqn:E3; simpl; try discriminate.
  intros [= <- <-]. apply setupMesh_frame in E3.
  destruct E3 as (_ & Ewv & _). unfold waves in Ewv. simpl in Ewv.
  injection Ewv as _ _ _ EA Ew ED ES.
  unfold wave_ranges. now rewrite EA, Ew, ED, ES.
Qed.

End Ranges.

(** In exact arithmetic, for every generator in the range of [rand] and
    every amplitude bound A_max >= 0, the constructor returns a wave set of
    maxI waves with A_i in [0, A_max], omega_i in [omega_max/2, omega_max],
    both components of D_i in [-1, 1] and S_i >= omega_max/2: what exceeds
    these ranges in binary32 is an effect of rounding. *)
Lemma wave_set_ranges_exact (L : Libc Exact)
        (px pz pw pl pdimx pdimz : Z) (A_max : Q) (mI : Z) (anim : bool)
        (g : rng) :
  rand_in_range L ->
  (0 <= A_max)%Q ->
  exists w g',
    Water.new px pz pw pl pdimx pdimz A_max mI true true anim g = Ok (w, g') /\
    length (Water.Ai w) = Z.to_nat mI /\
    length (Water.wi w) = Z.to_nat mI /\
    length (Water.Di w) = Z.to_nat mI /\
    length (Water.Si w) = Z.to_nat mI /\
    Forall (fun a => 0 <= a <= A_max)%Q (Water.Ai w) /\
    Forall (fun om => omega_max / 2 <= om <= omega_max)%Q (Water.wi w) /\
    Forall (fun d => (-1 <= v2x d <= 1)%Q /\ (-1 <= v2y d <= 1)%Q)
           (Water.Di w) /\
    Forall (fun s => omega_max / 2 <= s)%Q (Water.Si w).
Proof.
  intros Hrand HA.
  destruct (new_spec (A := Exact) px pz pw pl pdimx pdimz A_max mI anim g)
    as (w & g' & E & Hr & _ & EI & _).
  exists w, g'. split; [exact E|].
  destruct Hr as (_ & _ & LA & Lw & LD & LS). rewrite EI in *.
  repeat (split; [assumption|]).
  apply (@new_ranges L Hrand (amplitude_range A_max)) in E.
  - destruct E as (RA & Rw & RD & RS).
    repeat split; try assumption.
    eapply Forall_impl; [|exact RS]. intros s Hs. apply Hs.
  - intros g0. now apply randFloat_range.
Qed.

(** The wave set of [Kernel::start] (amplitude bound 0.1f, 20 waves), built
    in IEEE arithmetic with the generator [libc], is within the same ranges:
    there the roundings of [randFloat] do not leave them. *)
Example kernel_wave_set_ranges :
  exists w g,
    Water.new (A := IEEE) 0 0 50 50 0 0 (flit 1 10) 20 true true false 1
    = Ok (w, g) /\
    length (Water.Ai w) = 20%nat /\
    in_ranges_IEEE (@flit IEEE 1 10) w = true.
Proof. run. split; vm_compute; reflexivity. Qed.

(** C8.  The specification has every amplitude A_i in [0, A_max], and the
    code documents [randFloat] as returning a float from 0 to x and [maxA]
    as the maximum amplitude of any wave.  [randFloat] divides twice, and
    each quotient is rounded: with A_max = 0.9f and a generator whose next
    value is [RAND_MAX] = 32767, RAND_MAX / A_max is rounded down and the
    amplitude of the first wave is 15099495 * 2^-24, one unit in the last
    place above A_max = 15099494 * 2^-24.  The frequency, the direction and
    the speed of that wave are within their ranges; and the same call in
    exact arithmetic returns the amplitude A_max: the excess is the rounding
    of the two divisions. *)
Theorem amplitude_above_A_max :
  fst (lcg_rand 2433918595) = 32767 /\
  @flit IEEE 9 10 = S754_finite false 15099494 (-24) /\
  (exists w g,
     Water.new (L := libc) 0 0 50 50 0 0 (flit 9 10) 1 true true false
               2433918595 = Ok (w, g) /\
     Water.Ai w = [S754_finite false 15099495 (-24)] /\
     existsb (fun a => B32.ltb (@flit IEEE 9 10) a) (Water.Ai w) = true /\
     in_ranges_IEEE (@flit IEEE 9 10) w = false /\
     freq_dir_speed_IEEE w = true) /\
  (exists w g,
     Water.new (L := libc_exact) 0 0 50 50 0 0 (15099494 # 16777216)%Q 1
               true true false 2433918595 = Ok (w, g) /\
     exists a, Water.Ai w = [a] /\ (a == 15099494 # 16777216)%Q).
Proof.
  split; [vm_compute; reflexivity|]. split; [vm_compute; reflexivity|].
  split.
  - run. split; [vm_compute; reflexivity|]. split; [vm_compute; reflexivity|].
    split; vm_compute; reflexivity.
  - run. eexists. split; [reflexivity|]. vm_compute. reflexivity.
Qed.

(** C7, as the code has it.  In exact arithmetic, for every generator in the
    range of [rand], every phase-speed constant S_i of a constructed wave set
    lies in [omega_max/2, omega_max/2 + S_max/2]; S_max is below that
    interval, so that S_i > S_max. *)
Theorem phase_speed_range (L : Libc Exact)
        (px pz pw pl pdimx pdimz : Z) (A_max : Q) (mI : Z) (anim : bool)
        (g : rng) :
  rand_in_range L ->
  exists w g',
    Water.new px pz pw pl pdimx pdimz A_max mI true true anim g = Ok (w, g') /\
    length (Water.Si w) = Z.to_nat mI /\
    Forall (fun s => omega_max / 2 <= s <= omega_max / 2 + S_max / 2 /\
                     S_max < s)%Q (Water.Si w).
Proof.
  intros Hrand.
  destruct (new_spec (A := Exact) px pz pw pl pdimx pdimz A_max mI anim g)
    as (w & g' & E & Hr & _ & EI & _).
  exists w, g'. split; [exact E|].
  destruct Hr as (_ & _ & _ & _ & _ & LS). rewrite EI in LS.
  split; [assumption|].
  apply (@new_ranges L Hrand (fun _ => True)) in E; [|trivial].
  destruct E as (_ & _ & _ & RS).
  eapply Forall_impl; [|exact RS]. intros s Hs. unfold speed_range in Hs.
  split; [exact Hs|].
  pose proof omega_max_value as Eo. pose proof S_max_value as Es.
  qlra.
Qed.

Lemma phase_speed_range_witness :
  rand_in_range libc_exact /\
  exists w g',
    Water.new (L := libc_exact) 0 0 50 50 0 0 (1 # 10)%Q 3 true true false 1
    = Ok (w, g') /\
    length (Water.Si w) = Z.to_nat 3 /\
    Forall (fun s => omega_max / 2 <= s <= omega_max / 2 + S_max / 2 /\
                     S_max < s)%Q (Water.Si w).
Proof.
  split; [exact libc_exact_in_range|].
  apply (@phase_speed_range libc_exact 0 0 50 50 0 0 (1 # 10)%Q 3 false 1).
  exact libc_exact_in_range.
Defined.

(** C7, as the specification states it, fails: the first wave of a wave set
    built in IEEE arithmetic, and the same wave in exact arithmetic, has a
    phase-speed constant that is at least omega_max/2 = 0.5 and above
    S_max = 0.005, hence outside [omega_max/2, S_max]. *)
Lemma phase_speed_above_S_max :
  (exists w g,
     Water.new (L := libc) 0 0 50 50 0 0 (flit 1 10) 1 true true false 1
     = Ok (w, g) /\
     exists s,
       Water.Si w = [s] /\
       B32.leb (@fdiv IEEE Water.MAXFREQ (f_of_int 2)) s = true /\
       B32.leb s (@Water.MAXSPED IEEE) = false) /\
  (exists w g,
     Water.new (L := libc_exact) 0 0 50 50 0 0 (1 # 10)%Q 1 true true false 1
     = Ok (w, g) /\
     exists s,
       Water.Si w = [s] /\
       Qle_bool (omega_max / 2) s = true /\
       Qle_bool s S_max = false).
Proof.
  split.
  - run. eexists. split; [reflexivity|]. split; vm_compute; reflexivity.
  - run. eexists. split; [reflexivity|]. split; vm_compute; reflexivity.
Qed.

(** ** The textures *)

Lemma store_inv (idx : Z) (v : option Z) (a a' : bytes) :
  store idx v a = Ok a' ->
  size a' = size a /\ cell a' idx = v /\
  forall k, k <> idx -> cell a' k = cell a k.
Proof.
  unfold store. destruct ((0 <=? idx) && (idx <? size a)); [|discriminate].
  intros [= <-]. simpl. split; [reflexivity|]. split.
  - now rewrite Z.eqb_refl.
  - intros k Hk. destruct (Z.eqb_spec k idx); [contradiction|reflexivity].
Qed.

Lemma store_returns (idx : Z) (v : option Z) (a : bytes) :
  0 <= idx < size a -> exists a', store idx v a = Ok a'.
Proof.
  intros Hidx. unfold store.
  destruct (Z.leb_spec 0 idx); [|lia]. destruct (Z.ltb_spec idx (size a)); [|lia].
  simpl. eauto.
Qed.

Lemma texel_rank (Nz i j k : Z) : texel Nz i j k = 3 * (i * Nz + j) + k.
Proof. unfold texel. lia. Qed.

(** A loop over the grid returns when each run of its body does from a state
    that satisfies an invariant of the loop. *)
Lemma forM_returns_inv {St : Type} (P : St -> Prop) (l : list Z)
      (body : Z -> St -> result St) :
  (forall i s, In i l -> P s -> exists s1, body i s = Ok s1 /\ P s1) ->
  forall s, P s -> exists s', forM l body s = Ok s' /\ P s'.
Proof.
  induction l as [|i l IH]; intros Hbody s Hs; simpl.
  - now exists s.
  - destruct (Hbody i s) as (s1 & E & Hs1); [now left|assumption|].
    rewrite E. simpl. apply IH; [|assumption].
    intros k s2 Hk. apply Hbody. now right.
Qed.

Lemma grid_returns_inv {St : Type} (P : St -> Prop)
      (body : Z -> Z -> St -> result St) (Nx Nz : Z) :
  (forall i j s, 0 <= i < Nx -> 0 <= j < Nz -> P s ->
     exists s1, body i j s = Ok s1 /\ P s1) ->
  forall s, P s -> exists s', grid Nx Nz body s = Ok s' /\ P s'.
Proof.
  intros Hbody. unfold grid. apply forM_returns_inv. intros i s Hi Hs.
  apply forM_returns_inv; [|assumption]. intros j s1 Hj Hs1.
  apply Hbody; try assumption; now apply range_In.
Qed.

(** Three stores at the texel (i, j), the bytes of which satisfy [px]. *)
Lemma written_step (Nx Nz : Z) (px : Z -> Z -> Z -> option Z -> Prop)
      (i j : Z) (v0 v1 v2 : option Z) (a a0 a1 a2 : bytes) :
  0 <= i < Nx -> 0 <= j < Nz ->
  written Nx Nz px (i * Nz + j) a ->
  px i j 0 v0 -> px i j 1 v1 -> px i j 2 v2 ->
  store (texel Nz i j 0) v0 a = Ok a0 ->
  store (texel Nz i j 1) v1 a0 = Ok a1 ->
  store (texel Nz i j 2) v2 a1 = Ok a2 ->
  written Nx Nz px (i * Nz + j + 1) a2.
Proof.
  intros Hi Hj (Hsz & Hold) P0 P1 P2 E0 E1 E2.
  apply store_inv in E0, E1, E2.
  destruct E0 as (Sa & Ca & Oa). destruct E1 as (Sb & Cb & Ob).
  destruct E2 as (Sc & Cc & Oc).
  split; [congruence|]. intros i' j' k Hi' Hj' Hk Hlt.
  rewrite !texel_rank in *.
  destruct (Z.eq_dec (i' * Nz + j') (i * Nz + j)) as [E|NE].
  - destruct (@rank_inj Nz i' j' i j Hj' Hj E) as [-> ->].
    assert (Hcases : k = 0 \/ k = 1 \/ k = 2) by lia.
    destruct Hcases as [-> | [-> | ->]].
    + rewrite Oc, Ob, Ca by lia. exact P0.
    + rewrite Oc, Cb by lia. exact P1.
    + rewrite Cc. exact P2.
  - rewrite Oc, Ob, Oa by lia. rewrite <- texel_rank.
    apply Hold; try assumption. lia.
Qed.

Lemma texel_in_bounds (Nx Nz i j k : Z) :
  0 <= i < Nx -> 0 <= j < Nz -> 0 <= k < 3 ->
  0 <= texel Nz i j k < Nx * Nz * 3.
Proof. intros Hi Hj Hk. rewrite texel_rank. nia. Qed.

(** The three stores of a texel return. *)
Lemma three_stores_return (Nx Nz i j : Z) (v0 v1 v2 : option Z) (a : bytes) :
  0 <= i < Nx -> 0 <= j < Nz -> size a = Nx * Nz * 3 ->
  exists a2,
    (a0 <- store (texel Nz i j 0) v0 a ;;
     a1 <- store (texel Nz i j 1) v1 a0 ;;
     store (texel Nz i j 2) v2 a1) = Ok a2 /\
    size a2 = Nx * Nz * 3.
Proof.
  intros Hi Hj Hsz.
  destruct (@store_returns (texel Nz i j 0) v0 a) as [a0 E0];
    [rewrite Hsz; apply texel_in_bounds; lia|].
  pose proof (store_inv _ _ _ E0) as (S0 & _).
  destruct (@store_returns (texel Nz i j 1) v1 a0) as [a1 E1];
    [rewrite S0, Hsz; apply texel_in_bounds; lia|].
  pose proof (store_inv _ _ _ E1) as (S1 & _).
  destruct (@store_returns (texel Nz i j 2) v2 a1) as [a2 E2];
    [rewrite S1, S0, Hsz; apply texel_in_bounds; lia|].
  pose proof (store_inv _ _ _ E2) as (S2 & _).
  exists a2. rewrite E0. simpl. rewrite E1. simpl. split; [exact E2|congruence].
Qed.

Section Texels.
Context {A : Arith} {R : Sqrt A}.

Lemma refract_map_texels (pdimX pdimZ : Z) (refract : bytes) :
  0 <= pdimX -> 0 <= pdimZ ->
  Kernel.refract_map pdimX pdimZ = Ok refract ->
  written pdimX pdimZ
          (fun i j _ b => b = Kernel.refract_byte pdimX pdimZ i j)
          (pdimX * pdimZ) refract.
Proof.
  intros HNx HNz Hrun. unfold Kernel.refract_map in Hrun.
  apply (grid_inv (written pdimX pdimZ
           (fun i j _ b => b = Kernel.refract_byte pdimX pdimZ i j))) in Hrun;
    try assumption.
  - split; [reflexivity|]. intros i j k Hi Hj Hk Hlt. nia.
  - intros i j s s1 Hi Hj Hs Hb. unfold Kernel.refract_texel in Hb.
    destruct (Kernel.refract_byte pdimX pdimZ i j) as [v|] eqn:Ev;
      cbn [defined bind] in Hb; try discriminate.
    destruct (store (texel pdimZ i j 0) _ s) as [a0| |] eqn:E0; simpl in Hb;
      try discriminate.
    destruct (store (texel pdimZ i j 1) _ a0) as [a1| |] eqn:E1; simpl in Hb;
      try discriminate.
    eapply written_step; try eassumption; cbv beta; now rewrite Ev.
Qed.

(** The loop returns when the conversion to [int] is defined at each of its
    texels. *)
Lemma refract_map_returns (pdimX pdimZ : Z) :
  (forall i j, 0 <= i < pdimX -> 0 <= j < pdimZ ->
     Kernel.refract_val pdimX pdimZ i j <> None) ->
  exists refract, Kernel.refract_map pdimX pdimZ = Ok refract.
Proof.
  intros Hval. unfold Kernel.refract_map.
  destruct (@grid_returns_inv bytes (fun a => size a = pdimX * pdimZ * 3)
              (Kernel.refract_texel pdimX pdimZ) pdimX pdimZ)
    with (s := new_bytes (pdimX * pdimZ * 3)) as (data & E & _).
  - intros i j s Hi Hj Hsz. unfold Kernel.refract_texel, Kernel.refract_byte.
    specialize (Hval i j Hi Hj).
    destruct (Kernel.refract_val pdimX pdimZ i j) as [v|]; [|contradiction].
    cbn [option_map defined bind]. now apply three_stores_return.
  - reflexivity.
  - now exists data.
Qed.

End Texels.

(** ** The normal map *)

Section NormalMap.
Context {A : Arith} {L : Libc A}.

(** The z component of a normal is the constant 1. *)
Lemma N_z (w : Water.t) (x y t0 : float) (n : vec3 float) :
  Water.N w x y t0 = Ok n -> v3z n = f_of_int 1.
Proof.
  unfold Water.N.
  destruct (Water.ddxH w x y t0) as [hx| |]; cbn [bind]; try discriminate.
  destruct (Water.ddyH w x y t0) as [hy| |]; cbn [bind]; try discriminate.
  now intros [= <-].
Qed.

(** Where the conversion of 256 to [unsigned char] has no defined result,
    the loop that fills [data] does not get past the z channel of its first
    texel. *)
Lemma normal_map_undefined (w : Water.t) (pX pZ pW pL pdimX pdimZ : Z) :
  Kernel.encode (f_of_int 1) = None ->
  ready w -> 1 <= pdimX -> 1 <= pdimZ ->
  Kernel.normal_map w pX pZ pW pL pdimX pdimZ = Undefined.
Proof.
  intros Hone Hr HNx HNz. unfold Kernel.normal_map, grid, range.
  replace (Z.to_nat pdimX) with (S (Z.to_nat (pdimX - 1))) by lia.
  replace (Z.to_nat pdimZ) with (S (Z.to_nat (pdimZ - 1))) by lia.
  cbn [seq map forM Z.of_nat].
  assert (E : Kernel.normal_texel w pX pZ pW pL pdimX pdimZ 0 0
                (new_bytes (pdimX * pdimZ * 3)) = Undefined).
  { unfold Kernel.normal_texel.
    destruct (N_returns (Water.sample pX pW pdimX 0)
                        (Water.sample pZ pL pdimZ 0) (f_of_int 0) Hr)
      as [n En].
    rewrite En. cbn [bind]. apply N_z in En.
    destruct (Kernel.encode (v3x n)) as [b0|]; cbn [defined bind];
      [|reflexivity].
    destruct (@store_returns (texel pdimZ 0 0 0) (Some b0)
                (new_bytes (pdimX * pdimZ * 3))) as [d0 E0];
      [cbn [size new_bytes]; unfold texel; nia|].
    rewrite E0. cbn [bind]. pose proof (store_inv _ _ _ E0) as (S0 & _).
    destruct (Kernel.encode (v3y n)) as [b1|]; cbn [defined bind];
      [|reflexivity].
    destruct (@store_returns (texel pdimZ 0 0 1) (Some b1) d0) as [d1 E1];
      [rewrite S0; cbn [size new_bytes]; unfold texel; nia|].
    rewrite E1. cbn [bind]. now rewrite En, Hone. }
  now rewrite E.
Qed.

End NormalMap.

(** C4.  The specification has each byte of the normal map equal to
    floor((c/2 + 0.5)*256) and an encoded value of exactly 256 saturate to
    255.  The z component of every normal is the constant 1, its encoded
    value is exactly 256, and the code converts it to [unsigned char]
    without a clamp: the conversion has no defined result (where a compiler
    converts through [int], the byte is 0, not 255).  On the 2 x 2 map of a
    flat water, in IEEE arithmetic, the x and the y byte of the first texel
    are 128 and the conversion of its z component is undefined; and for
    every water the constructor returned and every grid that is not empty,
    the map of [Kernel::start] included, the loop that fills [data] runs
    into that conversion at its first texel. *)
Theorem normal_z_not_saturated :
  spec_encode 1 = 256 /\
  @dtrunc IEEE (dmul (dadd (d_of_float (fdiv (f_of_int 1) (f_of_int 2)))
                           Water.half) (d_of_int 256)) = Some 256 /\
  Kernel.encode (A := IEEE) (f_of_int 1) = None /\
  to_uchar 256 = 0 /\
  (exists w g,
     Water.new (A := IEEE) 0 0 50 50 2 2 (flit 1 10) 0 true true false 1
     = Ok (w, g) /\
     exists n,
       Water.N w (Water.sample 0 50 2 0) (Water.sample 0 50 2 0) (f_of_int 0)
       = Ok n /\
       v3z n = f_of_int 1 /\
       Kernel.encode (v3x n) = Some 128 /\
       Kernel.encode (v3y n) = Some 128 /\
       Kernel.encode (v3z n) = None /\
       Kernel.normal_map w 0 0 50 50 2 2 = Undefined) /\
  (forall (L : Libc IEEE) (w : Water.t) (pX pZ pW pL pdimX pdimZ : Z),
     ready w -> 1 <= pdimX -> 1 <= pdimZ ->
     Kernel.normal_map w pX pZ pW pL pdimX pdimZ = Undefined).
Proof.
  assert (Hone : Kernel.encode (A := IEEE) (f_of_int 1) = None)
    by (vm_compute; reflexivity).
  split; [reflexivity|]. split; [vm_compute; reflexivity|].
  split; [exact Hone|]. split; [reflexivity|]. split.
  - run.
    lazymatch goal with
    | |- exists n, Water.N ?w ?x ?z ?t = _ /\ _ =>
        let r := eval vm_compute in (Water.N w x z t) in
        lazymatch r with
        | Ok ?n0 => exists n0; split; [reflexivity|]
        end
    end.
    split; [reflexivity|]. split; [vm_compute; reflexivity|].
    split; [vm_compute; reflexivity|]. split; [vm_compute; reflexivity|].
    apply normal_map_undefined; [exact Hone| |lia|lia].
    unfold ready. cbn. repeat split; discriminate.
  - intros L w pX pZ pW pL pdimX pdimZ Hr HNx HNz.
    now apply normal_map_undefined.
Qed.

(** ** The caustic texture *)

(** C2.  The specification has every channel equal to
    max(0, floor((1 - 2d)*256)), zero from d = 0.5 on and largest at the
    centre.  On the 8 x 8 texture, in IEEE arithmetic: the texel (1, 4) is at
    the distance d = 0.75 of the centre, its [val] is -128 (the test is
    1 - d > 0, not 1 - 2d > 0) and the three bytes stored are 128, where the
    specification gives 0; the centre (4, 4) is at d = 0, its [val] is 256
    and the three bytes stored are 0, where the specification gives the
    largest value; the texel (4, 5), at d = 0.25, stores 128, more than the
    centre.  On the 500 x 500 texture of [Kernel::start] the centre
    (250, 250) stores 0 as well and its neighbour 253, and the texel
    (100, 250), at d = 0.6, has [val] = -51 and stores 205. *)
Theorem refract_ring_and_dark_centre :
  exists refract,
    Kernel.refract_map (A := IEEE) 8 8 = Ok refract /\
    (exists d, SF2Q (Kernel.distance 8 8 1 4) = Some d /\ (d == 3 # 4)%Q) /\
    Kernel.refract_val 8 8 1 4 = Some (-128) /\
    spec_refract (3 # 4) = 0 /\
    map (fun k => cell refract (texel 8 1 4 k)) [0; 1; 2]
    = [Some 128; Some 128; Some 128] /\
    SF2Q (Kernel.distance 8 8 4 4) = Some 0%Q /\
    Kernel.refract_val 8 8 4 4 = Some 256 /\
    spec_refract 0 = 256 /\
    map (fun k => cell refract (texel 8 4 4 k)) [0; 1; 2]
    = [Some 0; Some 0; Some 0] /\
    (exists d, SF2Q (Kernel.distance 8 8 4 5) = Some d /\ (d == 1 # 4)%Q) /\
    spec_refract (1 # 4) = 128 /\
    map (fun k => cell refract (texel 8 4 5 k)) [0; 1; 2]
    = [Some 128; Some 128; Some 128] /\
    Kernel.refract_val (A := IEEE) 500 500 250 250 = Some 256 /\
    Kernel.refract_byte (A := IEEE) 500 500 250 250 = Some 0 /\
    Kernel.refract_byte (A := IEEE) 500 500 250 251 = Some 253 /\
    Kernel.refract_val (A := IEEE) 500 500 100 250 = Some (-51) /\
    Kernel.refract_byte (A := IEEE) 500 500 100 250 = Some 205.
Proof.
  run.
  split; [eexists; split; [vm_compute; reflexivity|reflexivity]|].
  split; [vm_compute; reflexivity|]. split; [reflexivity|].
  split; [vm_compute; reflexivity|]. split; [vm_compute; reflexivity|].
  split; [vm_compute; reflexivity|]. split; [reflexivity|].
  split; [vm_compute; reflexivity|].
  split; [eexists; split; [vm_compute; reflexivity|reflexivity]|].
  split; [reflexivity|]. split; [vm_compute; reflexivity|].
  repeat split; vm_compute; reflexivity.
Qed.

(** * Further properties of the code

    Properties the code shows beyond the claims of the specification,
    numbered X1, X2, ... *)

(** The state and the generator a call of the constructor returns, computed
    and handed to [k]. *)
Ltac returned call k :=
  let r := eval vm_compute in call in
  lazymatch r with
  | Ok (?w0, ?g0) => k w0 g0
  end.

(** ** The events of a frame *)

Lemma dispatch_down (k : Events.t) (e : SDL_Event) (m : key_member) :
  Events.down (Events.dispatch k e) m =
  match says m e with
  | Some b => Some b
  | None => Events.down k m
  end.
Proof. destruct e as [[]|[]|[]| |]; destruct m; reflexivity. Qed.

Lemma fold_dispatch_down (q : list SDL_Event) (k : Events.t) (m : key_member) :
  Events.down (fold_left Events.dispatch q k) m =
  match last_said m q with
  | Some b => Some b
  | None => Events.down k m
  end.
Proof.
  revert k. induction q as [|e q IH]; intros k; simpl; [reflexivity|].
  rewrite IH, dispatch_down. destruct (last_said m q); reflexivity.
Qed.

Lemma fold_dispatch_frame (q : list SDL_Event) (k : Events.t) :
  Events.rx (fold_left Events.dispatch q k) = Events.rx k /\
  Events.ry (fold_left Events.dispatch q k) = Events.ry k /\
  Events.reports (fold_left Events.dispatch q k) =
  (Events.reports k + length (filter is_return_down q))%nat.
Proof.
  revert k. induction q as [|e q IH]; intros k; simpl.
  - repeat split. lia.
  - destruct (IH (Events.dispatch k e)) as (-> & -> & ->).
    destruct e as [[]|[]|[]| |]; simpl; repeat split; lia.
Qed.

(** X1. [handleEvents] never starts the loop again: [isRunning] is true
    after it exactly when it was true before and the queue holds neither a
    key-down of Escape nor a close of the window. *)
Theorem handleEvents_isRunning (q : list SDL_Event) (k : Events.t) :
  Events.isRunning (Events.handleEvents q k) =
  Events.isRunning k && negb (existsb quits q).
Proof.
  unfold Events.handleEvents.
  change (Events.isRunning k) with (Events.isRunning (Events.set_rel 0 0 k)).
  generalize (Events.set_rel 0 0 k) as k0.
  induction q as [|e q IH]; intros k0; simpl.
  - now rewrite andb_true_r.
  - rewrite IH.
    assert (E : Events.isRunning (Events.dispatch k0 e) =
                Events.isRunning k0 && negb (quits e))
      by (destruct e as [[]|[]|[]| |]; simpl;
          now rewrite ?andb_true_r, ?andb_false_r).
    rewrite E, negb_orb. now rewrite andb_assoc.
Qed.

(** X2. The relative mouse motion [handleEvents] leaves is that of the last
    motion event of the queue, whatever [relX] and [relY] held before: the
    motions of a frame are not added up, and without a motion event both are
    0. *)
Theorem handleEvents_mouse (q : list SDL_Event) (k : Events.t) :
  (Events.relX (Events.handleEvents q k),
   Events.relY (Events.handleEvents q k)) =
  match last_motion q with
  | Some (x, y) => (Some x, Some y)
  | None => (Some 0, Some 0)
  end.
Proof.
  unfold Events.handleEvents.
  change (Some 0, Some 0)
    with (Events.relX (Events.set_rel 0 0 k), Events.relY (Events.set_rel 0 0 k)).
  generalize (Events.set_rel 0 0 k) as k0.
  induction q as [|e q IH]; intros k0; simpl; [reflexivity|].
  rewrite IH. destruct (last_motion q) as [[x y]|]; [reflexivity|].
  destruct e as [[]|[]|[]| |]; reflexivity.
Qed.

(** X3. After [handleEvents] a key member holds what the last event of the
    queue on its key says, true for a key-down and false for a key-up; a
    member whose key has no event in the queue keeps what it held, an
    indeterminate value included. [ctDown] and the resolution are never
    written. *)
Theorem handleEvents_keys (q : list SDL_Event) (k : Events.t) (m : key_member) :
  Events.down (Events.handleEvents q k) m
  = (match last_said m q with
     | Some b => Some b
     | None => Events.down k m
     end) /\
  Events.down (Events.handleEvents q k) ctDown = Events.down k ctDown /\
  Events.rx (Events.handleEvents q k) = Events.rx k /\
  Events.ry (Events.handleEvents q k) = Events.ry k.
Proof.
  unfold Events.handleEvents. rewrite !fold_dispatch_down.
  destruct (fold_dispatch_frame q (Events.set_rel 0 0 k)) as (-> & -> & _).
  repeat split.
  assert (E : last_said ctDown q = None).
  { induction q as [|e q IH]; simpl; [reflexivity|]. rewrite IH.
    destruct e as [[]|[]|[]| |]; reflexivity. }
  now rewrite E.
Qed.

(** X4. The camera report is written once for each key-down of Return in the
    queue, repeats of a held key included, and by no other event. *)
Theorem handleEvents_reports (q : list SDL_Event) (k : Events.t) :
  Events.reports (Events.handleEvents q k) =
  (Events.reports k + length (filter is_return_down q))%nat.
Proof.
  unfold Events.handleEvents.
  now destruct (fold_dispatch_frame q (Events.set_rel 0 0 k)) as (_ & _ & ->).
Qed.

(** X5. The constructor of [Kernel] initialises none of the key members and
    [Kernel::start] tests six of them in each frame. In the first frame the
    direction passed to the camera has a defined value exactly when each of
    the six keys W, A, S, D, Space and left Shift has an event in the queue:
    otherwise a test reads a [bool] that was never written. *)
Theorem direction_reads_unwritten_member
        (NONE FORWARD LEFT BACKWARD RIGHT UP DOWN : Z) (resx resy : Z)
        (q : list SDL_Event) :
  Events.direction NONE FORWARD LEFT BACKWARD RIGHT UP DOWN
    (Events.handleEvents q (Events.start_members resx resy Events.new))
  = Undefined
  <-> exists m, In m movement /\ last_said m q = None.
Proof.
  set (k := Events.handleEvents q _).
  assert (Hd : forall m, Events.down k m = last_said m q).
  { intros m. unfold k, Events.handleEvents. rewrite fold_dispatch_down.
    now destruct (last_said m q). }
  unfold Events.direction, Events.or_if. rewrite !Hd. unfold movement.
  destruct (last_said wDown q) as [[]|] eqn:Ew;
  destruct (last_said aDown q) as [[]|] eqn:Ea;
  destruct (last_said sDown q) as [[]|] eqn:Es;
  destruct (last_said dDown q) as [[]|] eqn:Ed;
  destruct (last_said spDown q) as [[]|] eqn:Ep;
  destruct (last_said shDown q) as [[]|] eqn:Eh;
  cbn [bind];
  (split;
   [ intros E; try discriminate E;
     first [ now exists wDown; split; [simpl; tauto|]
           | now exists aDown; split; [simpl; tauto|]
           | now exists sDown; split; [simpl; tauto|]
           | now exists dDown; split; [simpl; tauto|]
           | now exists spDown; split; [simpl; tauto|]
           | now exists shDown; split; [simpl; tauto|] ]
   | intros (m & Hm & E); try reflexivity; exfalso; simpl in Hm;
     repeat (destruct Hm as [<-|Hm]; [congruence|]); exact Hm ]).
Qed.

(** ** The element buffer and the draws *)

Lemma flat_map_length_const {X Y : Type} (f : X -> list Y) (c : nat)
      (l : list X) :
  (forall x, length (f x) = c) -> length (flat_map f l) = (c * length l)%nat.
Proof.
  intros Hc. induction l as [|a l IH]; simpl; [lia|].
  rewrite length_app, IH, Hc. lia.
Qed.

Lemma flat_map_nth_const {X Y : Type} (f : X -> list Y) (c : nat)
      (l : list X) (r p : nat) (x : X) :
  (forall x, length (f x) = c) -> nth_error l r = Some x -> (p < c)%nat ->
  nth_error (flat_map f l) (c * r + p) = nth_error (f x) p.
Proof.
  intros Hc. revert r. induction l as [|a l IH]; intros [|r] Hr Hp;
    simpl in Hr; try discriminate.
  - injection Hr as ->. simpl. rewrite Nat.mul_0_r, nth_error_app1; [reflexivity|].
    rewrite Hc. lia.
  - simpl. rewrite nth_error_app2 by (rewrite Hc; lia). rewrite Hc.
    replace (c * S r + p - c)%nat with (c * r + p)%nat by lia.
    now apply IH.
Qed.

Lemma strip_row_length (Nx i : Z) :
  length (flat_map (strip_pair Nx i) (range Nx)) = (2 * Z.to_nat Nx)%nat.
Proof.
  rewrite flat_map_length_const with (c := 2%nat) by reflexivity.
  now rewrite range_length.
Qed.

Section Later.
Context {A : Arith} {L : Libc A}.

(** No method moves the patch or touches the waves. *)
Lemma later_frame (w0 w : Water.t) :
  later w0 w -> patch w = patch w0 /\ waves w = waves w0.
Proof.
  intros Hl. induction Hl as [|dT w w' _ IH E|w w' _ IH E].
  - split; reflexivity.
  - apply updateTime_frame in E. destruct E as (-> & -> & _). exact IH.
  - apply updateMesh_frame in E. destruct E as (-> & -> & _). exact IH.
Qed.

(** What the constructor leaves, read from a call that returned. *)
Lemma new_inv (px pz pw pl pdimx pdimz : Z) (mA : float) (mI : Z)
      (anim : bool) (g g' : rng) (w : Water.t) :
  Water.new px pz pw pl pdimx pdimz mA mI true true anim g = Ok (w, g') ->
  ready w /\
  patch w = (px, pz, pw, pl, pdimx, pdimz) /\
  Water.maxI w = mI /\
  Water.internalTime w = Some (f_of_int 0) /\
  Water.push_vertices w [] = Ok (Water.vertices w) /\
  Water.indices w = Water.push_indices w [] /\
  Water.vbo_data w = Some (Water.vertices w) /\
  Water.ebo_data w = Some (Water.indices w).
Proof.
  intros E.
  destruct (new_spec px pz pw pl pdimx pdimz mA mI anim g)
    as (w1 & g1 & E1 & H).
  rewrite E in E1. injection E1 as <- <-. exact H.
Qed.

Lemma new_indices (px pz pw pl pdimx pdimz : Z) (mA : float) (mI : Z)
      (anim : bool) (g g' : rng) (w : Water.t) :
  Water.new px pz pw pl pdimx pdimz mA mI true true anim g = Ok (w, g') ->
  Water.pDimX w = pdimx /\ Water.pDimZ w = pdimz /\
  Water.ebo_data w = Some (Water.indices w) /\
  Water.indices w =
  flat_map (fun i => flat_map (strip_pair pdimx i) (range pdimx))
           (range (pdimz - 1)).
Proof.
  intros E. apply new_inv in E.
  destruct E as (_ & Ep & _ & _ & _ & Ei & _ & Ee).
  unfold patch in Ep. injection Ep as _ _ _ _ EX EZ.
  repeat split; try assumption.
  rewrite Ei, push_indices_rows, EX, EZ. reflexivity.
Qed.

End Later.

(** The index pushed for the row i, the column j and k = 0, 1. *)
Lemma strip_index (pdimx pdimz i j k : Z) :
  0 <= i < pdimz - 1 -> 0 <= j < pdimx -> 0 <= k < 2 ->
  pdimx * pdimz <= INT_MAX ->
  nth_error (flat_map (fun i => flat_map (strip_pair pdimx i) (range pdimx))
                      (range (pdimz - 1)))
            (Z.to_nat (2 * (pdimx * i + j) + k))
  = Some (j + pdimx * (i + k)).
Proof.
  intros Hi Hj Hk Hfit.
  replace (Z.to_nat (2 * (pdimx * i + j) + k))
    with (2 * Z.to_nat pdimx * Z.to_nat i
          + (2 * Z.to_nat j + Z.to_nat k))%nat by nia.
  rewrite flat_map_nth_const with (x := i);
    [|intros; apply strip_row_length
     |rewrite range_nth by lia; f_equal; lia|lia].
  rewrite flat_map_nth_const with (c := 2%nat) (x := j);
    [|reflexivity|rewrite range_nth by lia; f_equal; lia|lia].
  assert (Hsmall : 0 <= j + pdimx * (i + k) < 2 ^ 32)
    by (unfold INT_MAX in Hfit; nia).
  assert (Hk' : k = 0 \/ k = 1) by lia.
  destruct Hk' as [-> | ->]; simpl nth_error; unfold to_uint.
  - rewrite Z.add_0_r in *. now rewrite Z.mod_small.
  - now rewrite Z.mod_small.
Qed.

(** X6. The layout of the index sequence. The constructor leaves 2 * pdimx *
    (pdimz - 1) indices, in the vector and in the element buffer; for the
    row i < pdimz - 1 and the column j < pdimx, the two indices at the
    positions 2 * (pdimx * i + j) and 2 * (pdimx * i + j) + 1 are j + pdimx
    * i and j + pdimx * (i + 1), as long as pdimx * pdimz fits an [int]. *)
Theorem index_buffer_layout {A : Arith} {L : Libc A}
        (px pz pw pl pdimx pdimz : Z) (mA : float) (mI : Z) (anim : bool)
        (g g' : rng) (w : Water.t) (i j k : Z) :
  Water.new px pz pw pl pdimx pdimz mA mI true true anim g = Ok (w, g') ->
  0 <= i < pdimz - 1 -> 0 <= j < pdimx -> 0 <= k < 2 ->
  pdimx * pdimz <= INT_MAX ->
  Water.ebo_data w = Some (Water.indices w) /\
  Z.of_nat (length (Water.indices w)) = 2 * pdimx * (pdimz - 1) /\
  nth_error (Water.indices w) (Z.to_nat (2 * (pdimx * i + j) + k))
  = Some (j + pdimx * (i + k)).
Proof.
  intros E Hi Hj Hk Hfit. apply new_indices in E.
  destruct E as (_ & _ & Ee & Ei). split; [exact Ee|]. rewrite Ei.
  split.
  - rewrite flat_map_length_const with (c := (2 * Z.to_nat pdimx)%nat)
      by (intros; apply strip_row_length).
    rewrite range_length. nia.
  - now apply strip_index.
Qed.

Lemma index_buffer_layout_witness :
  exists w g,
    Water.new (A := IEEE) 0 0 50 50 2 3 (flit 1 10) 0 true true false 1
    = Ok (w, g) /\
    Water.ebo_data w = Some (Water.indices w) /\
    Z.of_nat (length (Water.indices w)) = 2 * 2 * (3 - 1) /\
    nth_error (Water.indices w) (Z.to_nat (2 * (2 * 1 + 1) + 1))
    = Some (1 + 2 * (1 + 1)).
Proof.
  run.
  eapply (@index_buffer_layout IEEE libc 0 0 50 50 2 3 (flit 1 10) 0 false 1);
    [reflexivity|lia|lia|lia|unfold INT_MAX; lia].
Defined.

(** X7. No draw reads outside the element buffer. In every state after the
    constructor, each [glDrawElements] of [draw] reads [pdimx] indices at
    positions that lie within the first pdimx * (pdimz - 1) of the 2 * pdimx
    * (pdimz - 1) the buffer holds. *)
Theorem draw_within_element_buffer {A : Arith} {L : Libc A}
        (px pz pw pl pdimx pdimz : Z) (mA : float) (mI : Z) (anim : bool)
        (g g' : rng) (w0 w : Water.t) :
  Water.new px pz pw pl pdimx pdimz mA mI true true anim g = Ok (w0, g') ->
  later w0 w ->
  0 <= pdimx <= INT_MAX -> pdimz <= INT_MAX ->
  exists ebo,
    Water.ebo_data w = Some ebo /\
    Z.of_nat (length ebo) = 2 * (pdimx * Z.max 0 (pdimz - 1)) /\
    Forall (fun c =>
              0 <= fst (index_span c) /\
              snd (index_span c) = fst (index_span c) + pdimx /\
              snd (index_span c) <= pdimx * Z.max 0 (pdimz - 1))
           (Water.draw w).
Proof.
  intros E Hl HNx HNz.
  pose proof (later_ebo_data Hl) as Ee. pose proof (later_frame Hl) as (Ep & _).
  apply new_indices in E. destruct E as (EX & EZ & Ee0 & Ei).
  unfold patch in Ep. injection Ep as _ _ _ _ EX' EZ'.
  rewrite EX in EX'. rewrite EZ in EZ'.
  exists (Water.indices w0). split; [congruence|]. split.
  - rewrite Ei.
    rewrite flat_map_length_const with (c := (2 * Z.to_nat pdimx)%nat)
      by (intros; apply strip_row_length).
    rewrite range_length. nia.
  - rewrite draw_calls, EX', EZ'. apply Forall_forall. intros c Hc.
    apply in_map_iff in Hc. destruct Hc as (i & <- & Hi).
    apply range_In in Hi.
    unfold index_span, to_size_t, sizeof_uint, INT_MAX in *.
    cbn [de_offset de_count fst snd].
    assert (0 <= pdimx * i) by nia.
    assert (pdimx * i < 2 ^ 62) by nia.
    rewrite Z.mod_small by lia.
    replace (4 * pdimx * i) with (pdimx * i * 4) by lia.
    rewrite Z.div_mul by lia. nia.
Qed.

Lemma draw_within_element_buffer_witness :
  exists w0 g,
    Water.new (A := IEEE) 0 0 50 50 2 3 (flit 1 10) 0 true true false 1
    = Ok (w0, g) /\
    exists w,
      Water.updateMesh w0 = Ok w /\
      exists ebo,
        Water.ebo_data w = Some ebo /\
        Z.of_nat (length ebo) = 2 * (2 * Z.max 0 (3 - 1)) /\
        Forall (fun c =>
                  0 <= fst (index_span c) /\
                  snd (index_span c) = fst (index_span c) + 2 /\
                  snd (index_span c) <= 2 * Z.max 0 (3 - 1))
               (Water.draw w).
Proof.
  run. run.
  eapply (@draw_within_element_buffer IEEE libc 0 0 50 50 2 3 (flit 1 10) 0
            false 1).
  - reflexivity.
  - eapply later_updateMesh; [apply later_new|reflexivity].
  - unfold INT_MAX. lia.
  - unfold INT_MAX. lia.
Defined.

(** X8. The strips follow the grid only on a square grid. [setupMesh] stores
    the sample (i, j) at the rank i * pdimz + j of the vertex sequence and
    pushes, for the row i and the column j, the indices j + pdimx * (i + k),
    k = 0, 1. On a grid of at least one column and two rows, every pushed
    index is the rank of the sample (i + k, j), so that a strip joins
    neighbours of the grid, exactly when pdimx = pdimz. *)
Theorem strips_follow_grid_iff_square {A : Arith} {L : Libc A}
        (px pz pw pl pdimx pdimz : Z) (mA : float) (mI : Z) (anim : bool)
        (g g' : rng) (w : Water.t) :
  Water.new px pz pw pl pdimx pdimz mA mI true true anim g = Ok (w, g') ->
  1 <= pdimx -> 2 <= pdimz -> pdimx * pdimz <= INT_MAX ->
  (forall i j k, 0 <= i < pdimz - 1 -> 0 <= j < pdimx -> 0 <= k < 2 ->
     nth_error (Water.indices w) (Z.to_nat (2 * (pdimx * i + j) + k))
     = Some ((i + k) * pdimz + j))
  <-> pdimx = pdimz.
Proof.
  intros E HNx HNz Hfit. apply new_indices in E.
  destruct E as (_ & _ & _ & Ei). rewrite Ei. split.
  - intros Hall.
    assert (H1 : 0 <= 0 < pdimz - 1) by lia.
    assert (H2 : 0 <= 0 < pdimx) by lia.
    assert (H3 : 0 <= 1 < 2) by lia.
    specialize (Hall 0 0 1 H1 H2 H3).
    rewrite strip_index in Hall by lia.
    assert (E1 : 0 + pdimx * (0 + 1) = (0 + 1) * pdimz + 0) by congruence.
    lia.
  - intros <- i j k Hi Hj Hk. rewrite strip_index by lia. f_equal. lia.
Qed.

Lemma strips_follow_grid_iff_square_witness :
  exists w g,
    Water.new (A := IEEE) 0 0 50 50 2 3 (flit 1 10) 0 true true false 1
    = Ok (w, g) /\
    1 <= 2 /\ 2 <= 3 /\ 2 * 3 <= INT_MAX /\
    ((forall i j k, 0 <= i < 3 - 1 -> 0 <= j < 2 -> 0 <= k < 2 ->
        nth_error (Water.indices w) (Z.to_nat (2 * (2 * i + j) + k))
        = Some ((i + k) * 3 + j))
     <-> 2 = 3).
Proof.
  run. split; [lia|]. split; [lia|]. split; [unfold INT_MAX; lia|].
  returned
    (Water.new (A := IEEE) 0 0 50 50 2 3 (flit 1 10) 0 true true false 1)
    ltac:(fun w0 g0 =>
      apply (@strips_follow_grid_iff_square IEEE libc 0 0 50 50 2 3
               (flit 1 10) 0 false 1 g0 w0)).
  - reflexivity.
  - lia.
  - lia.
  - unfold INT_MAX. lia.
Defined.

(** ** The vertex buffer under [updateMesh] *)

Lemma forM_length {E : Type} (c : nat) (l : list Z)
      (body : Z -> list E -> result (list E)) :
  (forall i s s1, body i s = Ok s1 -> length s1 = (length s + c)%nat) ->
  forall s s', forM l body s = Ok s' ->
    length s' = (length s + c * length l)%nat.
Proof.
  intros Hbody. induction l as [|i l IH]; intros s s'; simpl.
  - intros [= <-]. lia.
  - destruct (body i s) as [s1| |] eqn:E1; simpl; try discriminate.
    intros E'. apply IH in E'. apply Hbody in E1. lia.
Qed.

Lemma buffer_sub_data_fits {E : Type} (data old : list E) :
  length data = length old -> Water.buffer_sub_data data (Some old) = Some data.
Proof.
  intros Hlen. unfold Water.buffer_sub_data. rewrite Hlen, Nat.leb_refl.
  now rewrite skipn_all, app_nil_r.
Qed.

Lemma buffer_sub_data_idem {E : Type} (data : list E) (store : option (list E)) :
  Water.buffer_sub_data data (Water.buffer_sub_data data store) = Water.buffer_sub_data data store.
Proof.
  destruct store as [old|]; [|reflexivity]. unfold Water.buffer_sub_data.
  destruct (Nat.leb_spec (length data) (length old)) as [Hle|Hgt].
  - rewrite length_app, length_skipn.
    destruct (Nat.leb_spec (length data) (length data + (length old - length data)))
      as [_|]; [|lia].
    now rewrite skipn_app, skipn_all, Nat.sub_diag.
  - destruct (Nat.leb_spec (length data) (length old)); [lia|reflexivity].
Qed.

(** The members of a state given field by field. *)
Ltac members :=
  cbn [Water.set_vbo_data Water.set_vertices Water.set_indices
       Water.set_internalTime Water.set_ebo_data
       Water.vertices Water.indices Water.internalTime Water.vbo_data
       Water.ebo_data Water.pX Water.pZ Water.pW Water.pL Water.pDimX
       Water.pDimZ Water.maxA Water.maxI Water.directional Water.rounded
       Water.animated Water.Ai Water.wi Water.Di Water.Si].

Section VertexBuffer.
Context {A : Arith} {L : Libc A}.

Lemma vertex_length (w : Water.t) (i j : Z) (v : list float) :
  Water.vertex w i j = Ok v -> length v = 6%nat.
Proof.
  intros Ev. apply vertex_inv in Ev.
  now destruct Ev as (? & ? & ? & _ & _ & _ & ->).
Qed.

(** The loop "setup vertices" pushes six floats for each sample. *)
Lemma push_vertices_length (w : Water.t) (vs vs' : list float) :
  Water.push_vertices w vs = Ok vs' ->
  length vs' =
  (length vs + 6 * (Z.to_nat (Water.pDimX w) * Z.to_nat (Water.pDimZ w)))%nat.
Proof.
  unfold Water.push_vertices, grid. intros E.
  apply forM_length with (c := (6 * Z.to_nat (Water.pDimZ w))%nat) in E.
  - rewrite range_length in E. lia.
  - intros i s s1 Ei. apply forM_length with (c := 6%nat) in Ei.
    + rewrite range_length in Ei. lia.
    + intros j s2 s3 Ej.
      destruct (Water.vertex w i j) as [v| |] eqn:Ev; simpl in Ej;
        try discriminate.
      injection Ej as <-. apply vertex_length in Ev.
      rewrite length_app. lia.
Qed.

(** The six floats of a sample, in a sequence the loop has filled. *)
Lemma pushed_block (w : Water.t) (vs : list float) (i j : Z) :
  pushed w (Water.pDimX w * Water.pDimZ w) vs ->
  0 <= i < Water.pDimX w -> 0 <= j < Water.pDimZ w ->
  exists v,
    Water.vertex w i j = Ok v /\
    firstn 6 (skipn (Z.to_nat (6 * (i * Water.pDimZ w + j))) vs) = v.
Proof.
  intros (Hlen & Hall) Hi Hj.
  destruct (Hall i j Hi Hj) as (v & Ev & Hnth); [nia|].
  exists v. split; [exact Ev|]. apply vertex_length in Ev.
  set (k := Z.to_nat (6 * (i * Water.pDimZ w + j))) in *.
  assert (Hk : (k + 6 <= length vs)%nat) by (rewrite Hlen; unfold k; nia).
  apply nth_error_ext. intros p.
  destruct (Nat.lt_ge_cases p 6) as [Hp|Hp].
  - rewrite nth_error_firstn, <- Hnth by assumption.
    destruct (Nat.ltb_spec p 6) as [_|]; [|lia].
    now rewrite nth_error_skipn.
  - rewrite nth_error_firstn.
    destruct (Nat.ltb_spec p 6) as [|_]; [lia|].
    symmetry. apply nth_error_None. lia.
Qed.

(** What the waves determine. *)
Lemma H_ext (w w' : Water.t) (x y t0 : float) :
  waves w' = waves w -> Water.H w' x y t0 = Water.H w x y t0.
Proof.
  unfold waves. intros [= EI Ed Er EA Ew ED ES]. unfold Water.H.
  rewrite EI. apply sum_waves_ext. intros k. unfold Water.W.
  now rewrite EA, Ew, ED, ES, Ed, Er.
Qed.

Lemma N_ext (w w' : Water.t) (x y t0 : float) :
  waves w' = waves w -> Water.N w' x y t0 = Water.N w x y t0.
Proof.
  unfold waves. intros [= EI Ed Er EA Ew ED ES].
  unfold Water.N, Water.ddxH, Water.ddyH. rewrite EI.
  rewrite (@sum_waves_ext _ (fun k => Water.ddxW w' k x y t0)
                            (fun k => Water.ddxW w k x y t0))
    by (intros k; unfold Water.ddxW; now rewrite EA, Ew, ED, ES, Ed, Er).
  rewrite (@sum_waves_ext _ (fun k => Water.ddyW w' k x y t0)
                            (fun k => Water.ddyW w k x y t0))
    by (intros k; unfold Water.ddyW; now rewrite EA, Ew, ED, ES, Ed, Er).
  reflexivity.
Qed.

End VertexBuffer.

(** X9. The vertex buffer mirrors the vertex vector. In every state after
    the constructor the buffer object holds exactly the floats of
    [vertices], 6 * pdimx * pdimz of them: each [glBufferSubData] of
    [updateMesh] overwrites the whole store and never leaves it. (The
    element buffer and [indices] do not stay equal: [updateMesh] clears the
    vector.) *)
Theorem vertex_buffer_mirrors_vertices {A : Arith} {L : Libc A}
        (px pz pw pl pdimx pdimz : Z) (mA : float) (mI : Z) (anim : bool)
        (g g' : rng) (w0 w : Water.t) :
  Water.new px pz pw pl pdimx pdimz mA mI true true anim g = Ok (w0, g') ->
  later w0 w ->
  Water.vbo_data w = Some (Water.vertices w) /\
  length (Water.vertices w) = (6 * (Z.to_nat pdimx * Z.to_nat pdimz))%nat.
Proof.
  intros E Hl. apply new_inv in E.
  destruct E as (_ & Ep & _ & _ & Hvs & _ & Hvbo & _).
  assert (Hdim : forall w1, patch w1 = patch w0 ->
            Water.pDimX w1 = pdimx /\ Water.pDimZ w1 = pdimz).
  { intros w1 E1. rewrite Ep in E1. unfold patch in E1.
    now injection E1 as _ _ _ _ -> ->. }
  induction Hl as [|dT w w' Hl IH E|w w' Hl IH E].
  - split; [exact Hvbo|]. apply push_vertices_length in Hvs.
    destruct (Hdim w0 eq_refl) as (EX & EZ). rewrite EX, EZ in Hvs.
    simpl in Hvs. exact Hvs.
  - apply updateTime_frame in E.
    destruct E as (_ & _ & Ev & _ & Eb & _). now rewrite Ev, Eb.
  - destruct IH as (IHb & IHl). pose proof (later_frame Hl) as (Epw & _).
    unfold Water.updateMesh in E.
    destruct (Water.push_vertices (Water.set_indices _ _) _) as [vs| |] eqn:Evs;
      simpl in E; try discriminate.
    injection E as <-. cbn [Water.vbo_data Water.vertices Water.set_vbo_data
                            Water.set_vertices Water.set_indices].
    apply push_vertices_length in Evs.
    destruct (Hdim w Epw) as (EX & EZ). simpl in Evs. rewrite EX, EZ in Evs.
    rewrite IHb. split; [|exact Evs].
    apply buffer_sub_data_fits. lia.
Qed.

Lemma vertex_buffer_mirrors_vertices_witness :
  exists w0 g,
    Water.new (A := IEEE) 0 0 50 50 2 3 (flit 1 10) 0 true true false 1
    = Ok (w0, g) /\
    exists w,
      Water.updateMesh w0 = Ok w /\
      Water.vbo_data w = Some (Water.vertices w) /\
      length (Water.vertices w) = (6 * (Z.to_nat 2 * Z.to_nat 3))%nat.
Proof.
  run. run.
  eapply (@vertex_buffer_mirrors_vertices IEEE libc 0 0 50 50 2 3 (flit 1 10)
            0 false 1).
  - reflexivity.
  - eapply later_updateMesh; [apply later_new|reflexivity].
Defined.

(** X10. [updateMesh] twice is [updateMesh] once: called again on the state
    it returned, without a step of the clock in between, it returns that
    very state, the buffer objects included. *)
Theorem updateMesh_idempotent {A : Arith} {L : Libc A} (w w1 : Water.t) :
  Water.updateMesh w = Ok w1 -> Water.updateMesh w1 = Ok w1.
Proof.
  destruct w as [v ix t0 vb eb pX pZ pW pL dX dZ mA mI dir rnd an Ai wi Di Si].
  unfold Water.updateMesh. members.
  destruct (Water.push_vertices _ _) as [vs| |] eqn:Evs; cbn [bind];
    try discriminate.
  intros [= <-]. members.
  match goal with |- context [Water.push_vertices ?wa ?l] =>
    replace (Water.push_vertices wa l) with (Ok (A := list float) vs)
      by (rewrite <- Evs; symmetry; now apply push_vertices_ext) end.
  cbn [bind]. now rewrite buffer_sub_data_idem.
Qed.

Lemma updateMesh_idempotent_witness :
  exists w g,
    Water.new (A := IEEE) 0 0 50 50 2 3 (flit 1 10) 0 true true false 1
    = Ok (w, g) /\
    exists w1, Water.updateMesh w = Ok w1 /\ Water.updateMesh w1 = Ok w1.
Proof.
  run.
  lazymatch goal with
  | |- exists w1, Water.updateMesh ?w = Ok w1 /\ _ =>
      run; apply (@updateMesh_idempotent IEEE libc w); reflexivity
  end.
Defined.

(** X11. [Kernel::update] composes the two steps. On a grid of at least one
    column and two rows whose corner and whose number of samples fit an
    [int]: in every state after the constructor, with the clock at t,
    [update(dt)] returns; it leaves the clock at t + dt, and the six floats
    of every sample (i, j) are then x, H(x, z, t + dt), z and
    N(x, z, t + dt): the mesh is sampled at the new time, on the same
    waves. *)
Theorem update_resamples_at_new_time {A : Arith} {L : Libc A}
        (px pz pw pl pdimx pdimz : Z) (mA : float) (mI : Z) (anim : bool)
        (g g' : rng) (w0 w : Water.t) (dt : float) :
  1 <= pdimx -> 2 <= pdimz -> pdimx * pdimz <= INT_MAX ->
  INT_MIN <= px - Z.quot pw 2 <= INT_MAX ->
  INT_MIN <= pz - Z.quot pl 2 <= INT_MAX ->
  Water.new px pz pw pl pdimx pdimz mA mI true true anim g = Ok (w0, g') ->
  later w0 w ->
  exists t0 w',
    Water.internalTime w = Some t0 /\
    Kernel.update dt w = Ok w' /\
    Water.internalTime w' = Some (fadd t0 dt) /\
    forall i j, 0 <= i < pdimx -> 0 <= j < pdimz ->
      let x := Water.sample px pw pdimx i in
      let z := Water.sample pz pl pdimz j in
      exists y n,
        Water.H w x z (fadd t0 dt) = Ok y /\
        Water.N w x z (fadd t0 dt) = Ok n /\
        firstn 6 (skipn (Z.to_nat (6 * (i * pdimz + j))) (Water.vertices w'))
        = [x; y; z; v3x n; v3y n; v3z n].
Proof.
  intros _ _ _ _ _ E Hl. apply new_inv in E. destruct E as (Hr0 & Ep0 & _).
  pose proof (later_ready Hr0 Hl) as Hr.
  pose proof (later_frame Hl) as (Ep & _).
  destruct (Water.internalTime w) as [t0|] eqn:Et;
    [|now destruct Hr as (_ & Ht & _)].
  unfold Kernel.update, Water.updateTime. rewrite Et. cbn [bind].
  set (w1 := Water.set_internalTime (Some (fadd t0 dt)) w).
  assert (Hr1 : ready w1)
    by (apply ready_frame with (w := w); [reflexivity|discriminate|assumption]).
  destruct (updateMesh_returns Hr1) as [w' E'].
  exists t0, w'. split; [reflexivity|]. split; [exact E'|].
  pose proof (@updateMesh_frame _ _ _ _ E') as (Ep' & Ew' & Et' & _).
  split; [rewrite Et'; reflexivity|].
  intros i j Hi Hj.
  assert (Epatch : patch w' = (px, pz, pw, pl, pdimx, pdimz))
    by (rewrite Ep'; change (patch w1) with (patch w); congruence).
  unfold patch in Epatch. injection Epatch as EX EZ EW EL EDX EDZ.
  apply updateMesh_vertices in E'.
  apply push_vertices_layout in E'; [|lia|lia].
  destruct (@pushed_block _ _ w' (Water.vertices w') i j E') as (v & Ev & Hv);
    [lia|lia|].
  apply vertex_inv in Ev. destruct Ev as (t1 & y & n & Et1 & Ey & En & ->).
  rewrite Et' in Et1. simpl in Et1. injection Et1 as <-.
  rewrite EX, EZ, EW, EL, EDX, EDZ in *.
  exists y, n.
  rewrite (H_ext _ _ _ Ew') in Ey. rewrite (N_ext _ _ _ Ew') in En.
  rewrite (@H_ext _ _ w w1) in Ey by reflexivity.
  rewrite (@N_ext _ _ w w1) in En by reflexivity.
  split; [exact Ey|]. split; [exact En|]. exact Hv.
Qed.

Lemma update_resamples_at_new_time_witness :
  1 <= 2 /\ 2 <= 3 /\ 2 * 3 <= INT_MAX /\
  INT_MIN <= 0 - Z.quot 50 2 <= INT_MAX /\
  INT_MIN <= 0 - Z.quot 50 2 <= INT_MAX /\
  exists w0 g,
    Water.new (A := IEEE) 0 0 50 50 2 3 (flit 1 10) 0 true true false 1
    = Ok (w0, g) /\
    exists t0 w',
      Water.internalTime w0 = Some t0 /\
      Kernel.update (flit 1 10) w0 = Ok w' /\
      Water.internalTime w' = Some (fadd t0 (flit 1 10)) /\
      forall i j, 0 <= i < 2 -> 0 <= j < 3 ->
        let x := Water.sample 0 50 2 i in
        let z := Water.sample 0 50 3 j in
        exists y n,
          Water.H w0 x z (fadd t0 (flit 1 10)) = Ok y /\
          Water.N w0 x z (fadd t0 (flit 1 10)) = Ok n /\
          firstn 6 (skipn (Z.to_nat (6 * (i * 3 + j))) (Water.vertices w'))
          = [x; y; z; v3x n; v3y n; v3z n].
Proof.
  split; [lia|]. split; [lia|]. split; [vm_compute; discriminate|].
  split; [vm_compute; split; discriminate|].
  split; [vm_compute; split; discriminate|].
  run.
  eapply (@update_resamples_at_new_time IEEE libc 0 0 50 50 2 3 (flit 1 10) 0
            false 1).
  - lia.
  - lia.
  - vm_compute; discriminate.
  - vm_compute; split; discriminate.
  - vm_compute; split; discriminate.
  - reflexivity.
  - apply later_new.
Defined.

(** ** The random numbers of the constructor *)

Section Draws.
Context {A : Arith} {L : Libc A}.

Lemma draws_add (n m : nat) (g : rng) : draws (n + m) g = draws n (draws m g).
Proof. unfold draws. apply Nat.iter_add. Qed.

(** One run of the body of the loop: five calls of [rand], in the order
    amplitude, frequency, the two components of the direction, speed. *)
Lemma ctor_body_draws (mA : float) (i : Z) (w : Water.t) (g : rng) :
  Water.ctor_body mA i (w, g) =
  (Water.push_wave
     (fst (Water.randFloat mA g))
     (Water.halved_plus_half_freq
        (fst (Water.randFloat Water.MAXFREQ (draws 1 g))))
     (mkvec2
        (Water.twice_minus_one (fst (Water.randFloat (f_of_int 1) (draws 2 g))))
        (Water.twice_minus_one (fst (Water.randFloat (f_of_int 1) (draws 3 g)))))
     (Water.halved_plus_half_freq
        (fst (Water.randFloat Water.MAXSPED (draws 4 g))))
     w,
   draws 5 g).
Proof.
  unfold Water.ctor_body, Water.randFloat, draws, Nat.iter. cbn [nat_rect].
  destruct (rand g) as [r1 g1]. cbn [snd].
  destruct (rand g1) as [r2 g2]. cbn [snd].
  destruct (rand g2) as [r3 g3]. cbn [snd].
  destruct (rand g3) as [r4 g4]. cbn [snd].
  destruct (rand g4) as [r5 g5].
  reflexivity.
Qed.

Lemma ctor_loop_draws (mA : float) (mI : Z) (w0 : Water.t) (g : rng) :
  let s := for_ (range mI) (Water.ctor_body mA) (w0, g) in
  let n := Z.to_nat mI in
  snd s = draws (5 * n) g /\
  Water.Ai (fst s) =
  Water.Ai w0 ++
  map (fun i => fst (Water.randFloat mA (draws (5 * i) g))) (seq 0 n) /\
  Water.wi (fst s) =
  Water.wi w0 ++
  map (fun i => Water.halved_plus_half_freq
                  (fst (Water.randFloat Water.MAXFREQ (draws (5 * i + 1) g))))
      (seq 0 n) /\
  Water.Si (fst s) =
  Water.Si w0 ++
  map (fun i => Water.halved_plus_half_freq
                  (fst (Water.randFloat Water.MAXSPED (draws (5 * i + 4) g))))
      (seq 0 n).
Proof.
  cbv zeta.
  replace (Z.to_nat mI) with (Z.to_nat (Z.max 0 mI)) by lia.
  apply (for_range_inv (fun k s =>
    snd s = draws (5 * Z.to_nat k) g /\
    Water.Ai (fst s) =
    Water.Ai w0 ++
    map (fun i => fst (Water.randFloat mA (draws (5 * i) g)))
        (seq 0 (Z.to_nat k)) /\
    Water.wi (fst s) =
    Water.wi w0 ++
    map (fun i => Water.halved_plus_half_freq
                    (fst (Water.randFloat Water.MAXFREQ (draws (5 * i + 1) g))))
        (seq 0 (Z.to_nat k)) /\
    Water.Si (fst s) =
    Water.Si w0 ++
    map (fun i => Water.halved_plus_half_freq
                    (fst (Water.randFloat Water.MAXSPED (draws (5 * i + 4) g))))
        (seq 0 (Z.to_nat k)))).
  - cbn [fst snd]. change (Z.to_nat 0) with 0%nat. cbn [seq map Nat.mul].
    rewrite !app_nil_r. repeat split.
  - intros i [w g1] Hi (Hg & HA & Hw & HS). cbn [fst snd] in *.
    rewrite ctor_body_draws. cbn [fst snd].
    replace (Z.to_nat (i + 1)) with (S (Z.to_nat i)) by lia.
    rewrite seq_S, !map_app. cbn [map Nat.add].
    unfold Water.push_wave. cbn [Water.Ai Water.wi Water.Si].
    rewrite HA, Hw, HS, Hg, <- !app_assoc.
    rewrite <- !draws_add.
    replace (5 + 5 * Z.to_nat i)%nat with (5 * S (Z.to_nat i))%nat by lia.
    replace (1 + 5 * Z.to_nat i)%nat with (5 * Z.to_nat i + 1)%nat by lia.
    replace (4 + 5 * Z.to_nat i)%nat with (5 * Z.to_nat i + 4)%nat by lia.
    repeat split.
Qed.

(** The generator and the waves the constructor returns. *)
Lemma new_draws (px pz pw pl pdimx pdimz : Z) (mA : float) (mI : Z)
      (anim : bool) (g g' : rng) (w : Water.t) :
  Water.new px pz pw pl pdimx pdimz mA mI true true anim g = Ok (w, g') ->
  g' = draws (5 * Z.to_nat mI) g /\
  Water.Ai w =
  map (fun i => fst (Water.randFloat mA (draws (5 * i) g)))
      (seq 0 (Z.to_nat mI)) /\
  Water.wi w =
  map (fun i => Water.halved_plus_half_freq
                  (fst (Water.randFloat Water.MAXFREQ (draws (5 * i + 1) g))))
      (seq 0 (Z.to_nat mI)) /\
  Water.Si w =
  map (fun i => Water.halved_plus_half_freq
                  (fst (Water.randFloat Water.MAXSPED (draws (5 * i + 4) g))))
      (seq 0 (Z.to_nat mI)).
Proof.
  unfold Water.new. cbn [andb].
  match goal with |- context [for_ (range mI) _ (?w0, g)] =>
    pose proof (@ctor_loop_draws mA mI w0 g) as Hloop;
    destruct (for_ (range mI) (Water.ctor_body mA) (w0, g)) as [w1 g1] end.
  cbv zeta in Hloop. cbn [fst snd] in Hloop.
  destruct Hloop as (Hg & HA & Hw & HS).
  destruct (Water.setupMesh _) as [w3| |] eqn:E3; cbn [bind]; try discriminate.
  intros [= <- <-]. apply setupMesh_frame in E3.
  destruct E3 as (_ & Ewv & _). unfold waves in Ewv.
  injection Ewv as _ _ _ EA Ew _ ES.
  rewrite EA, Ew, ES, Hg. cbn [Water.Ai Water.wi Water.Si Water.set_internalTime].
  rewrite HA, Hw, HS. cbn [Water.Ai Water.wi Water.Si app]. repeat split.
Qed.

End Draws.

(** X12. The constructor draws its waves in order. In the implemented mode
    it calls [rand] five times for each wave and no other time: from the
    generator state g it returns with the state reached after 5 * maxI
    calls, and the amplitude, the frequency and the speed of wave i come
    from the calls number 5i, 5i + 1 and 5i + 4. Hence wave i does not
    depend on maxI: a larger wave set from the same seed starts with the
    same waves. *)
Theorem waves_drawn_in_order {A : Arith} {L : Libc A}
        (px pz pw pl pdimx pdimz : Z) (mA : float) (mI : Z) (anim : bool)
        (g : rng) :
  exists w,
    Water.new px pz pw pl pdimx pdimz mA mI true true anim g
    = Ok (w, draws (5 * Z.to_nat mI) g) /\
    Water.Ai w =
    map (fun i => fst (Water.randFloat mA (draws (5 * i) g)))
        (seq 0 (Z.to_nat mI)) /\
    Water.wi w =
    map (fun i => Water.halved_plus_half_freq
                    (fst (Water.randFloat Water.MAXFREQ (draws (5 * i + 1) g))))
        (seq 0 (Z.to_nat mI)) /\
    Water.Si w =
    map (fun i => Water.halved_plus_half_freq
                    (fst (Water.randFloat Water.MAXSPED (draws (5 * i + 4) g))))
        (seq 0 (Z.to_nat mI)).
Proof.
  destruct (new_spec px pz pw pl pdimx pdimz mA mI anim g)
    as (w & g' & E & _).
  pose proof E as E0. apply new_draws in E0. destruct E0 as (-> & H).
  exists w. split; [exact E|exact H].
Qed.

(** X13. A wave set without waves is a flat surface. With maxI <= 0,
    negative values included, the constructor draws no random number and
    pushes no wave; in every later state the height is 0 at every point and
    time and the normal is (0 - 0, 0 - 0, 1). *)
Theorem no_waves_flat_surface {A : Arith} {L : Libc A}
        (px pz pw pl pdimx pdimz : Z) (mA : float) (mI : Z) (anim : bool)
        (g : rng) (x y t0 : float) :
  mI <= 0 ->
  exists w0,
    Water.new px pz pw pl pdimx pdimz mA mI true true anim g = Ok (w0, g) /\
    Water.Ai w0 = [] /\ Water.wi w0 = [] /\ Water.Si w0 = [] /\
    forall w, later w0 w ->
      Water.H w x y t0 = Ok (f_of_int 0) /\
      Water.N w x y t0
      = Ok (mkvec3 (fsub (f_of_int 0) (f_of_int 0))
                   (fsub (f_of_int 0) (f_of_int 0)) (f_of_int 1)).
Proof.
  intros HI.
  destruct (new_spec px pz pw pl pdimx pdimz mA mI anim g)
    as (w0 & g' & E & _ & _ & EI & _).
  pose proof E as E0. apply new_draws in E0.
  replace (Z.to_nat mI) with 0%nat in E0 by lia.
  destruct E0 as (-> & HA & Hw & HS).
  exists w0. split; [exact E|]. repeat (split; [assumption|]).
  intros w Hl. pose proof (later_frame Hl) as (_ & Ew). unfold waves in Ew.
  injection Ew as EI' _ _ _ _ _ _. rewrite EI in EI'.
  unfold Water.H, Water.N, Water.ddxH, Water.ddyH, Water.sum_waves.
  rewrite EI', range_nonpos by assumption. split; reflexivity.
Qed.

Lemma no_waves_flat_surface_witness :
  -3 <= 0 /\
  exists w0,
    Water.new (A := IEEE) 0 0 50 50 2 3 (flit 1 10) (-3) true true false 1
    = Ok (w0, 1) /\
    Water.Ai w0 = [] /\ Water.wi w0 = [] /\ Water.Si w0 = [] /\
    forall w, later w0 w ->
      Water.H w (flit 7 2) (flit 1 3) (flit 5 1) = Ok (f_of_int 0) /\
      Water.N w (flit 7 2) (flit 1 3) (flit 5 1)
      = Ok (mkvec3 (fsub (f_of_int 0) (f_of_int 0))
                   (fsub (f_of_int 0) (f_of_int 0)) (f_of_int 1)).
Proof.
  split; [lia|].
  apply (@no_waves_flat_surface IEEE libc 0 0 50 50 2 3 (flit 1 10) (-3) false
           1). lia.
Defined.

(** ** The surface, in exact arithmetic *)

(** X15. The normal is the cross product of the binormal and the tangent. In
    exact arithmetic, in every state after the constructor, [B], [T] and [N]
    return, N = B x T, N is orthogonal to both, and N is not normalised: its
    squared length is at least 1. *)
Theorem normal_is_cross_product (L : Libc Exact)
        (px pz pw pl pdimx pdimz : Z) (A_max : Q) (mI : Z) (anim : bool)
        (g g' : rng) (w0 w : Water.t) (x y t0 : Q) :
  Water.new px pz pw pl pdimx pdimz A_max mI true true anim g = Ok (w0, g') ->
  later w0 w ->
  exists b t n,
    Water.B w x y t0 = Ok b /\
    Water.T w x y t0 = Ok t /\
    Water.N w x y t0 = Ok n /\
    vec3_eq n (cross b t) /\
    (dot3 n b == 0)%Q /\ (dot3 n t == 0)%Q /\ (1 <= dot3 n n)%Q.
Proof.
  intros E Hl. apply new_inv in E. destruct E as (Hr0 & _).
  pose proof (later_ready Hr0 Hl) as Hr.
  unfold Water.B, Water.T, Water.N, Water.ddxH, Water.ddyH.
  destruct (@sum_waves_returns Exact (fun i => Water.ddxW w i x y t0)
              (Water.maxI w)) as [hx Ex];
    [intros; now apply ddxW_returns|].
  destruct (@sum_waves_returns Exact (fun i => Water.ddyW w i x y t0)
              (Water.maxI w)) as [hy Ey];
    [intros; now apply ddyW_returns|].
  rewrite Ex, Ey. cbn [bind].
  eexists _, _, _. split; [reflexivity|]. split; [reflexivity|].
  split; [reflexivity|].
  unfold vec3_eq, dot3, cross. cbn [v3x v3y v3z fsub f_of_int Exact].
  change (inject_Z 0) with 0%Q. change (inject_Z 1) with 1%Q.
  split; [repeat split; ring|]. split; [ring|]. split; [ring|]. nra.
Qed.

Lemma normal_is_cross_product_witness :
  exists w0 g,
    Water.new (L := libc_exact) 0 0 50 50 0 0 (1 # 10)%Q 3 true true false 1
    = Ok (w0, g) /\
    later w0 w0 /\
    exists b t n,
      Water.B w0 (7 # 2)%Q (1 # 3)%Q 5%Q = Ok b /\
      Water.T w0 (7 # 2)%Q (1 # 3)%Q 5%Q = Ok t /\
      Water.N w0 (7 # 2)%Q (1 # 3)%Q 5%Q = Ok n /\
      vec3_eq n (cross b t) /\
      (dot3 n b == 0)%Q /\ (dot3 n t == 0)%Q /\ (1 <= dot3 n n)%Q.
Proof.
  run. split; [apply later_new|].
  returned
    (Water.new (L := libc_exact) 0 0 50 50 0 0 (1 # 10)%Q 3 true true false 1)
    ltac:(fun w0 g0 =>
      apply (@normal_is_cross_product libc_exact 0 0 50 50 0 0 (1 # 10)%Q 3
               false 1 g0 w0 w0)).
  - reflexivity.
  - apply later_new.
Defined.

(** ** The textures of [Kernel::start] *)

(** The texel and the channel of a position of the array. *)
Lemma texel_of_position (Nx Nz idx : Z) :
  0 <= Nx -> 0 <= Nz -> 0 <= idx < Nx * Nz * 3 ->
  let i := idx / (3 * Nz) in
  let j := (idx / 3) mod Nz in
  let k := idx mod 3 in
  0 <= i < Nx /\ 0 <= j < Nz /\ 0 <= k < 3 /\ texel Nz i j k = idx.
Proof.
  intros HNx HNz Hidx. cbv zeta.
  assert (HNz' : 0 < Nz) by nia.
  rewrite <- Z.div_div by lia.
  pose proof (Z.div_mod idx 3 ltac:(lia)) as E3.
  pose proof (Z.mod_pos_bound idx 3 ltac:(lia)) as B3.
  pose proof (Z.div_mod (idx / 3) Nz ltac:(lia)) as EN.
  pose proof (Z.mod_pos_bound (idx / 3) Nz HNz') as BN.
  set (r := idx / 3) in *. set (k := idx mod 3) in *.
  set (i := r / Nz) in *. set (j := r mod Nz) in *.
  assert (Hr : 0 <= r < Nx * Nz) by lia.
  assert (Hi : 0 <= i < Nx) by nia.
  rewrite texel_rank. repeat split; lia.
Qed.

(** X18. The loop of the caustic texture fills its array. For dimensions
    whose product fits an [int], if the conversion of the value to [int] is
    defined at every texel, the loop returns without a store outside the
    array of pdimX * pdimZ * 3 bytes, and afterwards every position idx of
    [refract] holds a byte, that of its texel
    (idx / (3 pdimZ), idx / 3 mod pdimZ). *)
Theorem caustic_texture_filled {A : Arith} {R : Sqrt A} (pdimX pdimZ : Z) :
  0 <= pdimX -> 0 <= pdimZ -> pdimX * pdimZ * 3 <= INT_MAX ->
  (forall i j, 0 <= i < pdimX -> 0 <= j < pdimZ ->
     Kernel.refract_val pdimX pdimZ i j <> None) ->
  exists refract,
    Kernel.refract_map pdimX pdimZ = Ok refract /\
    size refract = pdimX * pdimZ * 3 /\
    forall idx, 0 <= idx < pdimX * pdimZ * 3 ->
      exists b,
        cell refract idx = Some b /\ 0 <= b <= 255 /\
        Kernel.refract_byte pdimX pdimZ (idx / (3 * pdimZ))
                            ((idx / 3) mod pdimZ) = Some b.
Proof.
  intros HNx HNz _ Hval.
  destruct (refract_map_returns Hval) as [refract Er].
  exists refract. split; [exact Er|].
  apply refract_map_texels in Er; [|assumption|assumption].
  destruct Er as (Sr & Hall). split; [exact Sr|].
  intros idx Hidx.
  destruct (@texel_of_position pdimX pdimZ idx HNx HNz Hidx)
    as (Hi & Hj & Hk & Et).
  specialize (Hall _ _ _ Hi Hj Hk). rewrite Et in Hall.
  cbv beta in Hall. rewrite Hall by nia.
  specialize (Hval _ _ Hi Hj). unfold Kernel.refract_byte.
  destruct (Kernel.refract_val pdimX pdimZ _ _) as [v|]; [|contradiction].
  cbn [option_map]. exists (to_uchar v). split; [reflexivity|].
  split; [|reflexivity]. unfold to_uchar.
  pose proof (Z.mod_pos_bound v (2 ^ 8) ltac:(lia)). lia.
Qed.

Lemma caustic_texture_filled_witness :
  0 <= 2 /\ 0 <= 2 /\ 2 * 2 * 3 <= INT_MAX /\
  (forall i j, 0 <= i < 2 -> 0 <= j < 2 ->
     Kernel.refract_val (A := IEEE) 2 2 i j <> None) /\
  exists refract,
    Kernel.refract_map (A := IEEE) 2 2 = Ok refract /\
    size refract = 2 * 2 * 3 /\
    forall idx, 0 <= idx < 2 * 2 * 3 ->
      exists b,
        cell refract idx = Some b /\ 0 <= b <= 255 /\
        Kernel.refract_byte (A := IEEE) 2 2 (idx / (3 * 2)) ((idx / 3) mod 2)
        = Some b.
Proof.
  assert (Hval : forall i j, 0 <= i < 2 -> 0 <= j < 2 ->
            Kernel.refract_val (A := IEEE) 2 2 i j <> None).
  { intros i j Hi Hj.
    assert (Ei : i = 0 \/ i = 1) by lia. assert (Ej : j = 0 \/ j = 1) by lia.
    destruct Ei as [-> | ->]; destruct Ej as [-> | ->];
      vm_compute; discriminate. }
  split; [lia|]. split; [lia|]. split; [unfold INT_MAX; lia|].
  split; [exact Hval|].
  apply (@caustic_texture_filled IEEE IEEE_sqrt 2 2);
    [lia|lia|unfold INT_MAX; lia|exact Hval].
Defined.

(** X19. The caustic texture is grey and mirrored about its centre. Two
    stored bytes are equal whenever their texels are as far from the centre
    column and as far from the centre row, in any two channels. *)
Theorem caustic_symmetric {A : Arith} {R : Sqrt A} (pdimX pdimZ : Z)
        (refract : bytes) (i j k i' j' k' : Z) :
  Kernel.refract_map pdimX pdimZ = Ok refract ->
  0 <= i < pdimX -> 0 <= j < pdimZ -> 0 <= k < 3 ->
  0 <= i' < pdimX -> 0 <= j' < pdimZ -> 0 <= k' < 3 ->
  Z.abs (Z.quot pdimX 2 - i) = Z.abs (Z.quot pdimX 2 - i') ->
  Z.abs (Z.quot pdimZ 2 - j) = Z.abs (Z.quot pdimZ 2 - j') ->
  cell refract (texel pdimZ i j k) = cell refract (texel pdimZ i' j' k').
Proof.
  intros Er Hi Hj Hk Hi' Hj' Hk' Ex Ez.
  apply refract_map_texels in Er; [|lia|lia]. destruct Er as (_ & Hall).
  rewrite (Hall i j k), (Hall i' j' k') by (try assumption; nia).
  unfold Kernel.refract_byte, Kernel.refract_val, Kernel.distance, Kernel.dist.
  now rewrite Ex, Ez.
Qed.

Lemma caustic_symmetric_witness :
  exists refract,
    Kernel.refract_map (A := IEEE) 8 8 = Ok refract /\
    0 <= 1 < 8 /\ 0 <= 4 < 8 /\ 0 <= 0 < 3 /\
    0 <= 7 < 8 /\ 0 <= 4 < 8 /\ 0 <= 2 < 3 /\
    Z.abs (Z.quot 8 2 - 1) = Z.abs (Z.quot 8 2 - 7) /\
    Z.abs (Z.quot 8 2 - 4) = Z.abs (Z.quot 8 2 - 4) /\
    cell refract (texel 8 1 4 0) = cell refract (texel 8 7 4 2).
Proof.
  run. repeat (split; [lia|]). split; [reflexivity|]. split; [reflexivity|].
  lazymatch goal with
  | |- cell ?r _ = _ =>
      apply (@caustic_symmetric IEEE IEEE_sqrt 8 8 r 1 4 0 7 4 2);
        [reflexivity|lia|lia|lia|lia|lia|lia|reflexivity|reflexivity]
  end.
Defined.

(** ** What can fail, and where *)

Lemma sum_waves_throws {A : Arith} (term : Z -> result float) (n : Z)
      (e : exn) :
  1 <= n -> term 0 = Throw e -> Water.sum_waves term n = Throw e.
Proof.
  intros Hn E. unfold Water.sum_waves, range.
  replace (Z.to_nat n) with (S (Z.to_nat (n - 1))) by lia.
  cbn [seq map forM Z.of_nat]. now rewrite E.
Qed.

(** X21. In the implemented mode nothing fails. For a water the constructor
    returned in the directional, rounded mode, on a grid of at least one
    column and two rows whose corner and whose number of samples fit an
    [int]: in every later state each of [H], [B], [T], [N], [updateTime],
    [updateMesh] and [Kernel::update] returns, at every point and time and
    for every step of the clock; no [at] is out of range and no
    uninitialised member is read. *)
Theorem implemented_mode_never_fails {A : Arith} {L : Libc A}
        (px pz pw pl pdimx pdimz : Z) (mA : float) (mI : Z) (anim : bool)
        (g g' : rng) (w0 w : Water.t) (x y t0 dT : float) :
  1 <= pdimx -> 2 <= pdimz -> pdimx * pdimz <= INT_MAX ->
  INT_MIN <= px - Z.quot pw 2 <= INT_MAX ->
  INT_MIN <= pz - Z.quot pl 2 <= INT_MAX ->
  Water.new px pz pw pl pdimx pdimz mA mI true true anim g = Ok (w0, g') ->
  later w0 w ->
  (exists h, Water.H w x y t0 = Ok h) /\
  (exists b, Water.B w x y t0 = Ok b) /\
  (exists t, Water.T w x y t0 = Ok t) /\
  (exists n, Water.N w x y t0 = Ok n) /\
  (exists w', Water.updateTime dT w = Ok w' /\ later w0 w') /\
  (exists w', Water.updateMesh w = Ok w' /\ later w0 w') /\
  (exists w', Kernel.update dT w = Ok w' /\ later w0 w').
Proof.
  intros _ _ _ _ _ E Hl. apply new_inv in E. destruct E as (Hr0 & _).
  pose proof (later_ready Hr0 Hl) as Hr.
  destruct (@sum_waves_returns A (fun i => Water.ddxW w i x y t0)
              (Water.maxI w)) as [hx Ex];
    [intros; now apply ddxW_returns|].
  destruct (@sum_waves_returns A (fun i => Water.ddyW w i x y t0)
              (Water.maxI w)) as [hy Ey];
    [intros; now apply ddyW_returns|].
  split; [now apply H_returns|].
  split; [unfold Water.B, Water.ddxH; rewrite Ex; cbn [bind]; eauto|].
  split; [unfold Water.T, Water.ddyH; rewrite Ey; cbn [bind]; eauto|].
  split; [now apply N_returns|].
  destruct (updateTime_returns dT Hr) as [w1 E1].
  destruct (updateMesh_returns Hr) as [w2 E2].
  pose proof (later_updateTime dT Hl E1) as Hl1.
  destruct (updateMesh_returns (later_ready Hr0 Hl1)) as [w3 E3].
  split; [exists w1; split; [exact E1|exact Hl1]|].
  split; [exists w2; split; [exact E2|exact (later_updateMesh Hl E2)]|].
  exists w3. unfold Kernel.update. rewrite E1. cbn [bind].
  split; [exact E3|exact (later_updateMesh Hl1 E3)].
Qed.

Lemma implemented_mode_never_fails_witness :
  1 <= 2 /\ 2 <= 3 /\ 2 * 3 <= INT_MAX /\
  INT_MIN <= 0 - Z.quot 50 2 <= INT_MAX /\
  INT_MIN <= 0 - Z.quot 50 2 <= INT_MAX /\
  exists w0 g,
    Water.new (A := IEEE) 0 0 50 50 2 3 (flit 1 10) 0 true true false 1
    = Ok (w0, g) /\
    later w0 w0 /\
    (exists h, Water.H w0 (flit 7 2) (flit 1 3) (flit 5 1) = Ok h) /\
    (exists b, Water.B w0 (flit 7 2) (flit 1 3) (flit 5 1) = Ok b) /\
    (exists t, Water.T w0 (flit 7 2) (flit 1 3) (flit 5 1) = Ok t) /\
    (exists n, Water.N w0 (flit 7 2) (flit 1 3) (flit 5 1) = Ok n) /\
    (exists w', Water.updateTime (flit 1 10) w0 = Ok w' /\ later w0 w') /\
    (exists w', Water.updateMesh w0 = Ok w' /\ later w0 w') /\
    (exists w', Kernel.update (flit 1 10) w0 = Ok w' /\ later w0 w').
Proof.
  split; [lia|]. split; [lia|].
  split; [vm_compute; discriminate|].
  split; [vm_compute; split; discriminate|].
  split; [vm_compute; split; discriminate|].
  run. split; [apply later_new|].
  returned
    (Water.new (A := IEEE) 0 0 50 50 2 3 (flit 1 10) 0 true true false 1)
    ltac:(fun w0 g0 =>
      apply (@implemented_mode_never_fails IEEE libc 0 0 50 50 2 3 (flit 1 10)
               0 false 1 g0 w0 w0)).
  - lia.
  - lia.
  - vm_compute; discriminate.
  - vm_compute; split; discriminate.
  - vm_compute; split; discriminate.
  - reflexivity.
  - apply later_new.
Defined.

(** X22. Outside the implemented mode every query fails. The constructor
    returns an object without waves and draws no random number; if maxI is
    at least 1, each of [H], [B], [T] and [N] on that object throws
    [std::out_of_range] from the first [at], at any point and time, and so
    does the loop of [Kernel::start] that fills the normal map of a grid
    that is not empty; [updateTime], and with it [Kernel::update], reads the
    clock that was never initialised. *)
Theorem unsupported_mode_queries_throw {A : Arith} {L : Libc A}
        (px pz pw pl pdimx pdimz : Z) (mA : float) (mI : Z)
        (dir rnd anim : bool) (g : rng) (x y t0 dT : float) :
  dir && rnd = false -> 1 <= mI ->
  exists w,
    Water.new px pz pw pl pdimx pdimz mA mI dir rnd anim g = Ok (w, g) /\
    Water.H w x y t0 = Throw out_of_range /\
    Water.B w x y t0 = Throw out_of_range /\
    Water.T w x y t0 = Throw out_of_range /\
    Water.N w x y t0 = Throw out_of_range /\
    (1 <= pdimx -> 1 <= pdimz ->
     Kernel.normal_map w px pz pw pl pdimx pdimz = Throw out_of_range) /\
    Water.updateTime dT w = Undefined /\
    Kernel.update dT w = Undefined.
Proof.
  intros Hmode HI. unfold Water.new. rewrite Hmode.
  eexists. split; [reflexivity|].
  assert (Hx : forall u v s, Water.ddxH
            {| Water.vertices := []; Water.indices := [];
               Water.internalTime := None;
               Water.vbo_data := None; Water.ebo_data := None;
               Water.pX := px; Water.pZ := pz; Water.pW := pw; Water.pL := pl;
               Water.pDimX := pdimx; Water.pDimZ := pdimz;
               Water.maxA := mA; Water.maxI := mI;
               Water.directional := dir; Water.rounded := rnd;
               Water.animated := anim;
               Water.Ai := []; Water.wi := []; Water.Di := [];
               Water.Si := [] |} u v s = Throw out_of_range)
    by (intros; apply sum_waves_throws; [exact HI|reflexivity]).
  split; [apply sum_waves_throws; [exact HI|reflexivity]|].
  split; [unfold Water.B; now rewrite Hx|].
  split; [unfold Water.T, Water.ddyH;
          rewrite sum_waves_throws with (e := out_of_range);
          [reflexivity|exact HI|reflexivity]|].
  split; [unfold Water.N; now rewrite Hx|].
  split; [|split; reflexivity].
  intros HNx HNz. unfold Kernel.normal_map, grid, range.
  replace (Z.to_nat pdimx) with (S (Z.to_nat (pdimx - 1))) by lia.
  replace (Z.to_nat pdimz) with (S (Z.to_nat (pdimz - 1))) by lia.
  cbn [seq map forM Z.of_nat]. unfold Kernel.normal_texel, Water.N.
  now rewrite Hx.
Qed.

Lemma unsupported_mode_queries_throw_witness :
  true && false = false /\ 1 <= 20 /\
  exists w,
    Water.new (A := IEEE) 0 0 50 50 500 500 (flit 1 10) 20 true false false 1
    = Ok (w, 1) /\
    Water.H w (flit 7 2) (flit 1 3) (flit 5 1) = Throw out_of_range /\
    Water.B w (flit 7 2) (flit 1 3) (flit 5 1) = Throw out_of_range /\
    Water.T w (flit 7 2) (flit 1 3) (flit 5 1) = Throw out_of_range /\
    Water.N w (flit 7 2) (flit 1 3) (flit 5 1) = Throw out_of_range /\
    (1 <= 500 -> 1 <= 500 ->
     Kernel.normal_map w 0 0 50 50 500 500 = Throw out_of_range) /\
    Water.updateTime (flit 1 10) w = Undefined /\
    Kernel.update (flit 1 10) w = Undefined.
Proof.
  split; [reflexivity|]. split; [lia|].
  apply (@unsupported_mode_queries_throw IEEE libc 0 0 50 50 500 500
           (flit 1 10) 20 true false false 1);
    [reflexivity|lia].
Defined.

(** ** The frame counter *)

Section Counter.
Context {A : Arith}.

Lemma ticks_app (dts1 dts2 : list float) (s : Fps.t) :
  Fps.ticks (dts1 ++ dts2) s = (s1 <- Fps.ticks dts1 s ;; Fps.ticks dts2 s1).
Proof.
  revert s. induction dts1 as [|dt dts1 IH]; intros s; simpl; [reflexivity|].
  destruct (Fps.tick dt s); simpl; auto.
Qed.

(** Frames that do not reach the next frame number 30 m + 1 only add up. *)
Lemma ticks_between (dts : list float) (s : Fps.t) :
  0 <= Fps.frame s ->
  Fps.frame s + Z.of_nat (length dts) <= INT_MAX ->
  (forall j, 1 <= j <= Z.of_nat (length dts) ->
     Z.rem (Fps.frame s + j) 30 <> 1) ->
  Fps.ticks dts s =
  Ok {| Fps.frame := Fps.frame s + Z.of_nat (length dts);
        Fps.curFPS := Fps.curFPS s;
        Fps.sumFPS := fold_left fadd dts (Fps.sumFPS s) |}.
Proof.
  revert s. induction dts as [|dt dts IH]; intros s H0 Hmax Hno.
  - simpl. rewrite Z.add_0_r. now destruct s.
  - cbn [Fps.ticks length fold_left] in *. unfold Fps.tick.
    rewrite Nat2Z.inj_succ in *.
    destruct (Z.leb_spec INT_MAX (Fps.frame s)) as [|_]; [lia|].
    destruct (Z.eqb_spec (Z.rem (Fps.frame s + 1) 30) 1) as [E|_];
      [exfalso; apply (Hno 1); [lia|exact E]|].
    cbn [bind]. rewrite IH; cbn [Fps.frame Fps.curFPS Fps.sumFPS].
    + f_equal. f_equal. lia.
    + lia.
    + lia.
    + intros j Hj. replace (Fps.frame s + 1 + j) with (Fps.frame s + (1 + j))
        by lia. apply Hno. lia.
Qed.

End Counter.

(** X23. The frame rate that is shown. From any state of the counter, over
    frames that take the times dts, at most 30 of them, the last of which
    gets a frame number 30 m + 1: the rate keeps its value until the last
    frame, which sets it to 30 / (sumFPS + the sum of dts), truncated to
    [int], and empties the sum. So the first rate, set in frame 1, is 30 /
    (0.001 + dt) for the time of that single frame, and every later one is
    30 over the time of the 30 frames before it. *)
Theorem frame_rate_window {A : Arith} (dts : list float) (s : Fps.t) (n : Z) :
  0 <= Fps.frame s ->
  (1 <= length dts <= 30)%nat ->
  Z.rem (Fps.frame s + Z.of_nat (length dts)) 30 = 1 ->
  Fps.frame s + Z.of_nat (length dts) <= INT_MAX ->
  int_of_float (fdiv (f_of_int 30) (fold_left fadd dts (Fps.sumFPS s)))
  = Some n ->
  Fps.ticks dts s =
  Ok {| Fps.frame := Fps.frame s + Z.of_nat (length dts);
        Fps.curFPS := n;
        Fps.sumFPS := f_of_int 0 |} /\
  forall k, (k < length dts)%nat ->
    Fps.ticks (firstn k dts) s =
    Ok {| Fps.frame := Fps.frame s + Z.of_nat k;
          Fps.curFPS := Fps.curFPS s;
          Fps.sumFPS := fold_left fadd (firstn k dts) (Fps.sumFPS s) |}.
Proof.
  intros H0 Hlen Hrem Hmax Hn.
  assert (Hpre : forall k, (k < length dts)%nat ->
    Fps.ticks (firstn k dts) s =
    Ok {| Fps.frame := Fps.frame s + Z.of_nat k;
          Fps.curFPS := Fps.curFPS s;
          Fps.sumFPS := fold_left fadd (firstn k dts) (Fps.sumFPS s) |}).
  { intros k Hk.
    assert (Hl : length (firstn k dts) = k) by (rewrite length_firstn; lia).
    rewrite ticks_between; rewrite ?Hl; [reflexivity|lia|lia|].
    intros j Hj Ej.
    rewrite Z.rem_mod_nonneg in Hrem, Ej by lia.
    pose proof (Z.div_mod (Fps.frame s + Z.of_nat (length dts)) 30) as D1.
    pose proof (Z.div_mod (Fps.frame s + j) 30) as D2. lia. }
  split; [|exact Hpre].
  destruct (exists_last (l := dts)) as (dts' & dt & ->);
    [intros ->; simpl in Hlen; lia|].
  rewrite length_app in *. cbn [length] in *.
  rewrite ticks_app.
  specialize (Hpre (length dts') ltac:(lia)).
  rewrite firstn_app, firstn_all, Nat.sub_diag in Hpre. cbn [firstn] in Hpre.
  rewrite app_nil_r in Hpre. rewrite Hpre. cbn [bind Fps.ticks].
  unfold Fps.tick. cbn [Fps.frame Fps.curFPS Fps.sumFPS].
  rewrite fold_left_app in Hn. cbn [fold_left] in Hn.
  destruct (Z.leb_spec INT_MAX (Fps.frame s + Z.of_nat (length dts')))
    as [|_]; [lia|].
  replace (Fps.frame s + Z.of_nat (length dts') + 1)
    with (Fps.frame s + Z.of_nat (length dts' + 1)) by lia.
  rewrite Hrem, Z.eqb_refl, Hn. reflexivity.
Qed.

Lemma frame_rate_window_witness :
  0 <= Fps.frame (Fps.init (A := IEEE)) /\
  (1 <= length [flit 1 60] <= 30)%nat /\
  Z.rem (Fps.frame (Fps.init (A := IEEE)) + Z.of_nat (length [flit 1 60])) 30
  = 1 /\
  Fps.frame (Fps.init (A := IEEE)) + Z.of_nat (length [flit 1 60]) <= INT_MAX /\
  int_of_float (fdiv (f_of_int 30)
                     (fold_left fadd [flit 1 60] (Fps.sumFPS Fps.init)))
  = Some 1698 /\
  Fps.ticks [flit 1 60] (Fps.init (A := IEEE)) =
  Ok {| Fps.frame := Fps.frame Fps.init + Z.of_nat (length [flit 1 60]);
        Fps.curFPS := 1698;
        Fps.sumFPS := f_of_int 0 |} /\
  forall k, (k < length [flit 1 60])%nat ->
    Fps.ticks (firstn k [flit 1 60]) (Fps.init (A := IEEE)) =
    Ok {| Fps.frame := Fps.frame Fps.init + Z.of_nat k;
          Fps.curFPS := Fps.curFPS Fps.init;
          Fps.sumFPS := fold_left fadd (firstn k [flit 1 60])
                                  (Fps.sumFPS Fps.init) |}.
Proof.
  split; [simpl; lia|]. split; [simpl; lia|]. split; [reflexivity|].
  split; [vm_compute; discriminate|]. split; [vm_compute; reflexivity|].
  apply (@frame_rate_window IEEE [flit 1 60] Fps.init 1698).
  - simpl; lia.
  - simpl; lia.
  - reflexivity.
  - vm_compute; discriminate.
  - vm_compute; reflexivity.
Defined.
